(** * jass-api-search: the documentation extractor, the quick-pick session
      and the detail renderer of [extension.ts], embedded and verified.

    A JavaScript string is a list of UTF-16 code units.  The regular
    expressions of the source are terms of [regex], run by a backtracking
    matcher that follows the priority order of ECMAScript (greedy
    quantifiers try the longest repetition first, lazy ones the shortest). *)

From Stdlib Require Import List Ascii String Bool Arith NArith Lia.
Import ListNotations.

Local Open Scope list_scope.

(** ** Strings *)

Definition code_unit : Type := N.

Definition jsstring : Type := list code_unit.

(** The code unit of an ASCII character, and a literal of the source. *)
Definition cu (c : ascii) : code_unit := N_of_ascii c.

Definition js (s : string) : jsstring := map cu (list_ascii_of_string s).

Definition nl : code_unit := 10%N.
Definition dquote : code_unit := 34%N.

(** [\s] of a regular expression, and the characters [trim] strips: the
    white space and the line terminators of ECMAScript. *)
Definition is_space (c : code_unit) : bool :=
  (((9 <=? c) && (c <=? 13)) || (c =? 32) || (c =? 160) || (c =? 5760)
   || ((8192 <=? c) && (c <=? 8202)) || (c =? 8232) || (c =? 8233)
   || (c =? 8239) || (c =? 8287) || (c =? 12288) || (c =? 65279))%N.

(** [\w]: [A-Za-z0-9_]. *)
Definition is_word (c : code_unit) : bool :=
  (((48 <=? c) && (c <=? 57)) || ((65 <=? c) && (c <=? 90))
   || (c =? 95) || ((97 <=? c) && (c <=? 122)))%N.

(** [s.startsWith(p)] *)
Fixpoint startsWith (p s : jsstring) : bool :=
  match p, s with
  | [], _ => true
  | _ :: _, [] => false
  | a :: p', b :: s' => N.eqb a b && startsWith p' s'
  end.

(** [s.includes(p)] *)
Fixpoint includes (p s : jsstring) : bool :=
  startsWith p s ||
  match s with
  | [] => false
  | _ :: s' => includes p s'
  end.

Fixpoint trimStart (s : jsstring) : jsstring :=
  match s with
  | c :: s' => if is_space c then trimStart s' else s
  | [] => []
  end.

Fixpoint trimEnd (s : jsstring) : jsstring :=
  match s with
  | [] => []
  | c :: s' => if forallb is_space s then [] else c :: trimEnd s'
  end.

(** [s.trim()] *)
Definition trim (s : jsstring) : jsstring := trimEnd (trimStart s).

(** [parts.join(sep)] *)
Fixpoint join (sep : jsstring) (parts : list jsstring) : jsstring :=
  match parts with
  | [] => []
  | [p] => p
  | p :: ps => p ++ sep ++ join sep ps
  end.

(** [s.split(c)] for a one-character separator: never the empty list. *)
Fixpoint split (c : code_unit) (s : jsstring) : list jsstring :=
  match s with
  | [] => [[]]
  | a :: s' =>
      if N.eqb a c then [] :: split c s'
      else match split c s' with
           | l :: ls => (a :: l) :: ls
           | [] => [[a]]
           end
  end.

(** [x || d] on a possibly undefined string: the empty string is falsy. *)
Definition or_default (x : option jsstring) (d : jsstring) : jsstring :=
  match x with
  | Some [] | None => d
  | Some s => s
  end.

(** ** Regular expressions *)

Inductive regex : Type :=
| Eps
| Chr (c : code_unit)
| Cls (p : code_unit -> bool)
| Seq (r1 r2 : regex)
| Alt (r1 r2 : regex)
| Star (greedy : bool) (r : regex)
| Group (i : nat) (r : regex)
| Eol.

(** [r+] *)
Definition plus (r : regex) : regex := Seq r (Star true r).

(** A run of literal characters. *)
Fixpoint lit (s : jsstring) : regex :=
  match s with
  | [] => Eps
  | c :: s' => Seq (Chr c) (lit s')
  end.

(** [[\s\S]], [\s], [\w] *)
Definition any : regex := Cls (fun _ => true).
Definition ws : regex := Cls is_space.
Definition wd : regex := Cls is_word.

(** The matcher's state: the index reached, the input left from there, and
    the captures made so far (latest first). *)
Record mstate : Type := MState {
  pos : nat;
  rest : jsstring;
  caps : list (nat * jsstring)
}.

Definition adv (st : mstate) : mstate :=
  MState (S (pos st)) (tl (rest st)) (caps st).

Definition set_cap (i : nat) (from to : mstate) : mstate :=
  MState (pos to) (rest to)
         ((i, firstn (pos to - pos from) (rest from)) :: caps to).

Definition orelse {A : Type} (x y : option A) : option A :=
  match x with
  | Some _ => x
  | None => y
  end.

(** The turns of a quantifier: [n] bounds how many more there can be, [step]
    matches one, and a turn that consumes nothing is refused, as in
    ECMAScript.  A greedy quantifier tries one more turn before it goes on, a
    lazy one goes on first. *)
Fixpoint star_loop (step : mstate -> (mstate -> option mstate) -> option mstate)
  (greedy : bool) (k : mstate -> option mstate) (n : nat) (st0 : mstate)
  {struct n} : option mstate :=
  match n with
  | O => k st0
  | S n' =>
      let again :=
        step st0 (fun st1 => if pos st1 =? pos st0 then None
                             else star_loop step greedy k n' st1) in
      if greedy then orelse again (k st0) else orelse (k st0) again
  end.

(** The backtracking matcher, in continuation-passing style: [rmatch r st k]
    is the first success, in priority order, of [r] at [st] followed by [k].
    Every turn of a quantifier consumes input, so there are never more turns
    than characters left. *)
Fixpoint rmatch (r : regex) (st : mstate) (k : mstate -> option mstate)
  {struct r} : option mstate :=
  match r with
  | Eps => k st
  | Chr c =>
      match rest st with
      | a :: _ => if N.eqb a c then k (adv st) else None
      | [] => None
      end
  | Cls p =>
      match rest st with
      | a :: _ => if p a then k (adv st) else None
      | [] => None
      end
  | Seq r1 r2 => rmatch r1 st (fun st1 => rmatch r2 st1 k)
  | Alt r1 r2 => orelse (rmatch r1 st k) (rmatch r2 st k)
  | Star greedy r1 =>
      star_loop (rmatch r1) greedy k (List.length (rest st)) st
  | Group i r1 => rmatch r1 st (fun st1 => k (set_cap i st st1))
  | Eol =>
      match rest st with
      | [] => k st
      | _ :: _ => None
      end
  end.

(** One match: the index where it starts, the input from that index on, and
    the state at its end. *)
Record rmatch_result : Type := MatchResult {
  m_index : nat;
  m_input : jsstring;
  m_end : mstate
}.

(** The text of a match. *)
Definition matched (m : rmatch_result) : jsstring :=
  firstn (pos (m_end m) - m_index m) (m_input m).

(** The search of [RegExp.prototype.exec]: the leftmost index, at or after
    the current one, where the expression matches; [s] is the input from
    index [i] on. *)
Fixpoint search (r : regex) (i : nat) (s : jsstring) : option rmatch_result :=
  match rmatch r (MState i s []) Some with
  | Some e => Some (MatchResult i s e)
  | None =>
      match s with
      | [] => None
      | _ :: s' => search r (S i) s'
      end
  end.

(** Capture group [i] of a match. *)
Fixpoint capture (i : nat) (cs : list (nat * jsstring)) : option jsstring :=
  match cs with
  | [] => None
  | (j, s) :: cs' => if i =? j then Some s else capture i cs'
  end.

(** [s.match(re)?.[i]] for an expression without the [g] flag. *)
Definition match_group (r : regex) (i : nat) (s : jsstring) : option jsstring :=
  match search r 0 s with
  | Some m => capture i (caps (m_end m))
  | None => None
  end.

(** The matches of an expression with the [g] flag: each search starts where
    the last match ended, one index further when that match was empty. *)
Fixpoint match_all_from (fuel : nat) (r : regex) (i : nat) (s : jsstring)
  : list jsstring :=
  match fuel with
  | O => []
  | S fuel' =>
      match search r i s with
      | None => []
      | Some m =>
          let e := m_end m in
          matched m ::
          (if pos e =? m_index m then
             match rest e with
             | [] => []
             | _ :: s' => match_all_from fuel' r (S (pos e)) s'
             end
           else match_all_from fuel' r (pos e) (rest e))
      end
  end.

(** [s.match(re)] with the [g] flag ([null] read as no match). *)
Definition match_all (r : regex) (s : jsstring) : list jsstring :=
  match_all_from (S (List.length s)) r 0 s.

(** A replacement pattern: literal text and [$i] references. *)
Inductive repl_part : Type :=
| RText (s : jsstring)
| RGroup (i : nat).

Definition expand (tpl : list repl_part) (cs : list (nat * jsstring)) : jsstring :=
  List.concat (map (fun part =>
                 match part with
                 | RText s => s
                 | RGroup i => match capture i cs with
                               | Some s => s
                               | None => []
                               end
                 end) tpl).

(** [s.replace(re, tpl)] without the [g] flag: the first match only. *)
Definition replace_first (r : regex) (tpl : list repl_part) (s : jsstring)
  : jsstring :=
  match search r 0 s with
  | None => s
  | Some m => firstn (m_index m) s ++ expand tpl (caps (m_end m)) ++ rest (m_end m)
  end.

(** [s.replace(re, tpl)] with the [g] flag, from index [i] on. *)
Fixpoint replace_all_from (fuel : nat) (r : regex) (tpl : list repl_part)
  (i : nat) (s : jsstring) : jsstring :=
  match fuel with
  | O => s
  | S fuel' =>
      match search r i s with
      | None => s
      | Some m =>
          let e := m_end m in
          firstn (m_index m - i) s ++ expand tpl (caps e) ++
          (if pos e =? m_index m then
             match rest e with
             | [] => []
             | c :: s' => c :: replace_all_from fuel' r tpl (S (pos e)) s'
             end
           else replace_all_from fuel' r tpl (pos e) (rest e))
      end
  end.

Definition replace_all (r : regex) (tpl : list repl_part) (s : jsstring)
  : jsstring :=
  replace_all_from (S (List.length s)) r tpl 0 s.

(** ** The signature extractor *)

Record ApiEntry : Type := mkApiEntry {
  name : jsstring;
  signature : jsstring;
  description : jsstring
}.

(** [/\/\*\*[\s\S]*?\*\/\s*\nnative\s+(\w+)\s+takes\s+([\s\S]*?)\s+returns\s+(\w+)/g] *)
Definition block_re : regex :=
  Seq (lit (js "/**"))
 (Seq (Star false any)
 (Seq (lit (js "*/"))
 (Seq (Star true ws)
 (Seq (Chr nl)
 (Seq (lit (js "native"))
 (Seq (plus ws)
 (Seq (Group 1 (plus wd))
 (Seq (plus ws)
 (Seq (lit (js "takes"))
 (Seq (plus ws)
 (Seq (Group 2 (Star false any))
 (Seq (plus ws)
 (Seq (lit (js "returns"))
 (Seq (plus ws)
      (Group 3 (plus wd)))))))))))))))).

(** [/native\s+(\w+)/] *)
Definition native_re : regex :=
  Seq (lit (js "native")) (Seq (plus ws) (Group 1 (plus wd))).

(** [/takes\s+([\s\S]*?)\s+returns/] *)
Definition takes_re : regex :=
  Seq (lit (js "takes"))
 (Seq (plus ws)
 (Seq (Group 1 (Star false any))
 (Seq (plus ws) (lit (js "returns"))))).

(** [/returns\s+(\w+)/] *)
Definition returns_re : regex :=
  Seq (lit (js "returns")) (Seq (plus ws) (Group 1 (plus wd))).

Definition entry_name (block : jsstring) : jsstring :=
  or_default (match_group native_re 1 block) (js "Unknown Function").

Definition entry_parameters (block : jsstring) : jsstring :=
  or_default (option_map trim (match_group takes_re 1 block)) (js "nothing").

Definition entry_returnType (block : jsstring) : jsstring :=
  or_default (match_group returns_re 1 block) (js "nothing").

(** The body of the [matches.map] callback. *)
Definition entry_of (block : jsstring) : ApiEntry :=
  let name := entry_name block in
  let parameters := entry_parameters block in
  let returnType := entry_returnType block in
  mkApiEntry name
    (name ++ js "(" ++ parameters ++ js "): " ++ returnType)
    block.

Definition parseApiDocumentation (texts : list jsstring) : list ApiEntry :=
  let combinedText := join [nl] texts in
  let matches := match_all block_re combinedText in
  map entry_of matches.

(** ** The detail renderer *)

(** [/\s+$/] *)
Definition trailing_re : regex := Seq (plus ws) Eol.

(** [/(@\w+)/g] *)
Definition annotation_re : regex := Group 1 (Seq (Chr (cu "@")) (plus wd)).

Definition span_open : jsstring :=
  js "<span class=" ++ [dquote] ++ js "annotation" ++ [dquote] ++ js ">".
Definition span_close : jsstring := js "</span>".

(** [`<span class="annotation">$1</span>`] *)
Definition annotation_tpl : list repl_part :=
  [RText span_open; RGroup 1; RText span_close].

(** The [filter] callback of the description pipeline. *)
Definition keep_line (line : jsstring) : bool :=
  negb (startsWith (js "/**") line) && negb (startsWith (js "*/") line).

Definition highlightedDescription (description : jsstring) : jsstring :=
  join [nl]
    (map (replace_all annotation_re annotation_tpl)
       (filter keep_line
          (map (replace_first trailing_re [])
             (split nl description)))).

(** The webview panel of [showFunctionDetails]: its title and the rendered
    description of the page. *)
Record Panel : Type := mkPanel {
  panel_title : jsstring;
  panel_description : jsstring
}.

Definition showFunctionDetails (func : ApiEntry) : Panel :=
  mkPanel (name func) (highlightedDescription (description func)).

(** ** The search session *)

Fixpoint jsstring_eqb (a b : jsstring) : bool :=
  match a, b with
  | [], [] => true
  | x :: a', y :: b' => N.eqb x y && jsstring_eqb a' b'
  | _, _ => false
  end.

Record QuickPickItem : Type := mkItem {
  label : jsstring;
  item_description : option jsstring;
  detail : option jsstring
}.

(** What [String(err)] gives for a rejection. *)
Record JsError : Type := mkError { error_string : jsstring }.

(** How one [axios.get] settles, and when. *)
Inductive response : Type :=
| Fulfilled (data : jsstring)
| Rejected (err : JsError).

Definition settlement : Type := (nat * response)%type.

(** The rejection that settles first, if any (the earlier URL on a tie). *)
Fixpoint first_rejection (rs : list settlement) : option (nat * JsError) :=
  match rs with
  | [] => None
  | (_, Fulfilled _) :: rs' => first_rejection rs'
  | (t, Rejected e) :: rs' =>
      match first_rejection rs' with
      | Some (t', e') => if t' <? t then Some (t', e') else Some (t, e)
      | None => Some (t, e)
      end
  end.

Definition response_data (r : settlement) : jsstring :=
  match snd r with
  | Fulfilled d => d
  | Rejected _ => []
  end.

(** [Promise.all]: the bodies in the order of the URLs, or the first
    rejection. *)
Definition promise_all (rs : list settlement) : JsError + list jsstring :=
  match first_rejection rs with
  | Some (_, e) => inl e
  | None => inr (map response_data rs)
  end.

Record FuseOptions : Type := mkFuseOptions {
  keys : list jsstring;
  threshold_tenths : nat;
  ignoreLocation : bool;
  includeScore : bool;
  minMatchCharLength : nat
}.

(** The index [new Fuse(docs, options)]. *)
Record Fuse : Type := mkFuse {
  docs : list ApiEntry;
  options : FuseOptions
}.

Definition fuse_options : FuseOptions :=
  mkFuseOptions [js "name"; js "signature"; js "description"] 3 true true 2.

(** An assignment to, or a call on, the quick pick. *)
Inductive write : Type :=
| WBusy (b : bool)
| WItems (rows : list QuickPickItem)
| WShow
| WHide
| WDispose.

(** The quick pick and the variables of [fuzzySearch] that its handlers
    close over. *)
Record Session : Type := mkSession {
  busy : bool;
  items : list QuickPickItem;
  visible : bool;
  disposed : bool;
  awaiting : bool;          (* suspended at the [await] of the fetch *)
  apiData : list ApiEntry;
  fuse : option Fuse;
  listening : bool;         (* the three handlers are registered *)
  details : list ApiEntry;  (* the entries handed to [showFunctionDetails] *)
  panels : list Panel;
  writes : list write       (* oldest first *)
}.

Definition set_busy (b : bool) (s : Session) : Session :=
  mkSession b (items s) (visible s) (disposed s) (awaiting s) (apiData s)
            (fuse s) (listening s) (details s) (panels s) (writes s ++ [WBusy b]).

Definition set_items (rows : list QuickPickItem) (s : Session) : Session :=
  mkSession (busy s) rows (visible s) (disposed s) (awaiting s) (apiData s)
            (fuse s) (listening s) (details s) (panels s) (writes s ++ [WItems rows]).

Definition resumed (s : Session) : Session :=
  mkSession (busy s) (items s) (visible s) (disposed s) false (apiData s)
            (fuse s) (listening s) (details s) (panels s) (writes s).

Definition set_data (d : list ApiEntry) (f : option Fuse) (s : Session) : Session :=
  mkSession (busy s) (items s) (visible s) (disposed s) (awaiting s) d
            f (listening s) (details s) (panels s) (writes s).

Definition listen (s : Session) : Session :=
  mkSession (busy s) (items s) (visible s) (disposed s) (awaiting s) (apiData s)
            (fuse s) true (details s) (panels s) (writes s).

(** A call of [showFunctionDetails]: a new panel beside the editor. *)
Definition show_details (func : ApiEntry) (s : Session) : Session :=
  mkSession (busy s) (items s) (visible s) (disposed s) (awaiting s) (apiData s)
            (fuse s) (listening s) (details s ++ [func])
            (panels s ++ [showFunctionDetails func]) (writes s).

(** [qp.dispose()], the [onDidHide] handler. *)
Definition dispose (s : Session) : Session :=
  mkSession (busy s) (items s) false true (awaiting s) (apiData s)
            (fuse s) (listening s) (details s) (panels s) (writes s ++ [WDispose]).

(** The quick pick leaves the screen; [onDidHide] fires when registered. *)
Definition hidden (s : Session) : Session :=
  let s' := mkSession (busy s) (items s) false (disposed s) (awaiting s)
                      (apiData s) (fuse s) (listening s) (details s) (panels s) (writes s) in
  if listening s then dispose s' else s'.

(** [qp.hide()] *)
Definition hide (s : Session) : Session :=
  if visible s then
    hidden (mkSession (busy s) (items s) (visible s) (disposed s) (awaiting s)
                      (apiData s) (fuse s) (listening s) (details s) (panels s)
                      (writes s ++ [WHide]))
  else s.

Definition loading_row : QuickPickItem :=
  mkItem (js "Loading...") (Some (js "Fetching documentation")) (Some (js "N/A")).

Definition failure_row (err : JsError) : QuickPickItem :=
  mkItem (js "Failed to fetch api data") (Some (js "Check network / urls"))
         (Some (error_string err)).

Definition no_functions_row : QuickPickItem :=
  mkItem (js "No functions found") (Some (js "Api docs are empty")) None.

Definition no_matches_row : QuickPickItem :=
  mkItem (js "no matches") (Some (js "try different terms")) None.

(** [toItems]: the rows of the first 200 entries. *)
Definition toItems (rows : list ApiEntry) : list QuickPickItem :=
  map (fun r => mkItem (name r) (Some (signature r)) None) (firstn 200 rows).

(** [fuzzySearch] up to its [await]: the quick pick is shown, busy. *)
Definition fuzzySearch_start : Session :=
  mkSession true [loading_row] true false true [] None false [] []
            [WBusy true; WItems [loading_row]; WShow].

Section WithFuse.

(** [fuse.search(value).map((r) => r.item)]: the ranking of the library. *)
Variable fuse_search : Fuse -> jsstring -> list ApiEntry.

(** [fuzzySearch] from the point where [Promise.all] settles. *)
Definition fuzzySearch_resume (s : Session) (settled : JsError + list jsstring)
  : Session :=
  let s := resumed s in
  match settled with
  | inl err => set_items [failure_row err] (set_busy false s)
  | inr texts =>
      let data := parseApiDocumentation texts in
      let s := set_data data None s in
      match data with
      | [] => set_items [no_functions_row] (set_busy false s)
      | _ :: _ =>
          let s := set_data data (Some (mkFuse data fuse_options)) s in
          listen (set_items (toItems data) (set_busy false s))
      end
  end.

Definition onDidChangeValue (s : Session) (value : jsstring) : Session :=
  match trim value with
  | [] => set_items (toItems (apiData s)) s
  | _ :: _ =>
      match fuse s with
      | None => s
      | Some f =>
          let results := fuse_search f value in
          set_items (match results with
                     | [] => [no_matches_row]
                     | _ :: _ => toItems results
                     end) s
      end
  end.

Definition onDidChangeSelection (s : Session) (sel : list QuickPickItem)
  : Session :=
  match sel with
  | [] => s
  | picked :: _ =>
      let chosen := find (fun r => jsstring_eqb (name r) (label picked)) (apiData s) in
      let s := match chosen with
               | Some e => show_details e s
               | None => s
               end in
      hide s
  end.

(** What can happen to a session. *)
Inductive event : Type :=
| FetchSettled (rs : list settlement)
| ChangeValue (value : jsstring)
| ChangeSelection (sel : list QuickPickItem)
| Dismiss.

Definition step (s : Session) (ev : event) : Session :=
  match ev with
  | FetchSettled rs =>
      if awaiting s then fuzzySearch_resume s (promise_all rs) else s
  | ChangeValue value =>
      if listening s && visible s then onDidChangeValue s value else s
  | ChangeSelection sel =>
      if listening s && visible s then onDidChangeSelection s sel else s
  | Dismiss =>
      if visible s then hidden s else s
  end.

Definition run (s : Session) (evs : list event) : Session :=
  fold_left step evs s.

End WithFuse.

(** ** The function name of the signature, and the first version of the command *)

(** [/^(\w+)\(/], without its anchor. *)
Definition name_re : regex := Seq (Group 1 (plus wd)) (Chr (cu "(")).

Definition func_name_open : jsstring :=
  js "<span class=" ++ [dquote] ++ js "func-name" ++ [dquote] ++ js ">".

(** [`<span class="func-name">$1</span>(`] *)
Definition name_tpl : list repl_part :=
  [RText func_name_open; RGroup 1; RText (js "</span>(")].

(** [s.replace(re, tpl)] for an expression that begins with [^] and has no
    [g] nor [m] flag: [r] is what follows the anchor, and the only index
    where the expression can match is 0. *)
Definition replace_at_start (r : regex) (tpl : list repl_part) (s : jsstring)
  : jsstring :=
  match rmatch r (MState 0 s []) Some with
  | None => s
  | Some e => expand tpl (caps e) ++ rest e
  end.

(** The first replacement of [highlightedSignature]: the function name. *)
Definition highlightedName (signature : jsstring) : jsstring :=
  replace_at_start name_re name_tpl signature.

Module Prompted.

(** The first version of the command asks through an input box and a list;
    what it shows, in order. *)
Inductive effect : Type :=
| ShowErrorMessage (message : jsstring)
| ShowInformationMessage (message : jsstring)
| ShowInputBox (placeHolder : jsstring)
| ShowQuickPick (rows : list jsstring) (placeHolder : jsstring)
| ShowFunctionDetails (func : ApiEntry).

(** [{ keys: [...], threshold: 0.3 }], the rest at the defaults of the
    library. *)
Definition fuse_options : FuseOptions :=
  mkFuseOptions [js "name"; js "signature"; js "description"] 3 false false 1.

(** The texts, or the error message and no text. *)
Definition fetchApiDocumentation (rs : list settlement)
  : list effect * list jsstring :=
  match promise_all rs with
  | inr texts => ([], texts)
  | inl _ =>
      ([ShowErrorMessage (js "Failed to fetch API data from GitHub.")], [])
  end.

(** [`${res.name}: ${res.signature}`] *)
Definition row (res : ApiEntry) : jsstring :=
  name res ++ js ": " ++ signature res.

(** A string that [if] takes for true. *)
Definition truthy (x : option jsstring) : option jsstring :=
  match x with
  | Some (_ :: _) => x
  | _ => None
  end.

(** [fuzzySearch]: [userInput] is what the input box resolves to and
    [selection] what the list resolves to, [None] when dismissed. *)
Definition fuzzySearch (fuse_search : Fuse -> jsstring -> list ApiEntry)
  (rs : list settlement) (userInput selection : option jsstring)
  : list effect :=
  let (shown, apiTexts) := fetchApiDocumentation rs in
  match apiTexts with
  | [] => shown
  | _ :: _ =>
      match parseApiDocumentation apiTexts with
      | [] => shown ++ [ShowInformationMessage (js "No functions found.")]
      | apiData =>
          let fuse := mkFuse apiData fuse_options in
          let shown := shown ++ [ShowInputBox (js "Search API...")] in
          match truthy userInput with
          | None => shown
          | Some input =>
              match fuse_search fuse input with
              | [] =>
                  shown ++
                  [ShowInformationMessage (js "No matching functions found.")]
              | results =>
                  let shown :=
                    shown ++ [ShowQuickPick (map row results)
                                            (js "Select a function")] in
                  match truthy selection with
                  | None => shown
                  | Some sel =>
                      match find (fun res => startsWith (name res) sel) results with
                      | Some selectedItem =>
                          shown ++ [ShowFunctionDetails selectedItem]
                      | None => shown
                      end
                  end
              end
          end
      end
  end.

End Prompted.

(** ** Notions used by the statements *)

Definition sp : code_unit := 32%N.

(** The match ends at index [p] with [t] left. *)
Definition ends_at (o : option mstate) (p : nat) (t : jsstring) : Prop :=
  exists cs, o = Some (MState p t cs).

(** A run of characters of the class [q] cannot go on into [t]. *)
Definition stops (q : code_unit -> bool) (t : jsstring) : bool :=
  match t with
  | [] => true
  | a :: _ => negb (q a)
  end.

(** [st'] lies [n] characters further along the input of [st]. *)
Definition ahead_by (n : nat) (st st' : mstate) : Prop :=
  pos st' = pos st + n /\ rest st' = skipn n (rest st) /\
  n <= List.length (rest st).

Definition ahead (st st' : mstate) : Prop := exists n, ahead_by n st st'.

(** *** Well-formed blocks *)

(** A non-empty run of word characters. *)
Definition is_identifier (s : jsstring) : bool :=
  match s with
  | [] => false
  | _ :: _ => forallb is_word s
  end.

(** Some character of [s] is not white space. *)
Definition has_text (s : jsstring) : bool :=
  existsb (fun a => negb (is_space a)) s.

(** [returns] stands as a word at the head of [s]: white space, or the end of
    [s], follows it. *)
Definition returns_word_at (s : jsstring) : bool :=
  startsWith (js "returns") s &&
  match skipn 7 s with
  | [] => true
  | b :: _ => is_space b
  end.

(** The word [returns] occurs in [s] right after white space; [after_space]
    tells whether white space precedes [s]. *)
Fixpoint keyword_in (after_space : bool) (s : jsstring) : bool :=
  match s with
  | [] => false
  | a :: s' => (after_space && returns_word_at s) || keyword_in (is_space a) s'
  end.

Definition mentions_returns (s : jsstring) : bool := keyword_in false s.

(** The comment [/**c*/], a line break, and the declaration
    [native N takes P returns T]. *)
Definition block (c N P T : jsstring) : jsstring :=
  js "/**" ++ c ++ js "*/" ++ [nl] ++
  js "native " ++ N ++ js " takes " ++ P ++ js " returns " ++ T.

(** The comment ends at its first [*/]; the name and the return type are
    identifiers; the parameter text is not blank and does not hold the
    keyword [returns] as a word of its own. *)
Definition well_formed_block (b : jsstring) : Prop :=
  exists c N P T,
    b = block c N P T /\
    includes (js "*/") c = false /\
    is_identifier N = true /\
    has_text P = true /\ mentions_returns P = false /\
    is_identifier T = true.

(** The tail of the block pattern, [\s+returns\s+(\w+)], and the text it is
    run on. *)
Definition returns_clause : regex :=
  Seq (plus ws) (Seq (lit (js "returns")) (Seq (plus ws) (Group 3 (plus wd)))).

Definition returns_text (T : jsstring) : jsstring :=
  sp :: js "returns" ++ sp :: T.

(** [([\s\S]*?)\s+returns\s+(\w+)] *)
Definition params_clause : regex :=
  Seq (Group 2 (Star false any)) returns_clause.

(** *** What the two replacements of the renderer do *)

Fixpoint take_while (q : code_unit -> bool) (s : jsstring) : jsstring :=
  match s with
  | a :: s' => if q a then a :: take_while q s' else []
  | [] => []
  end.

Fixpoint drop_while (q : code_unit -> bool) (s : jsstring) : jsstring :=
  match s with
  | a :: s' => if q a then drop_while q s' else s
  | [] => []
  end.

Definition starts_word (s : jsstring) : bool :=
  match s with
  | a :: _ => is_word a
  | [] => false
  end.

(** Every [@word] wrapped in the annotation span, in one pass: [inside] tells
    whether the scan is within a word that began with [@]. *)
Fixpoint annotate_from (inside : bool) (s : jsstring) : jsstring :=
  match s with
  | [] => if inside then span_close else []
  | a :: s' =>
      if inside && is_word a then a :: annotate_from true s'
      else (if inside then span_close else []) ++
           (if N.eqb a (cu "@") && starts_word s'
            then span_open ++ a :: annotate_from true s'
            else a :: annotate_from false s')
  end.

Definition annotate (s : jsstring) : jsstring := annotate_from false s.

(** The description pipeline with the two replacements read as what they
    do: trailing white space stripped, the lines that [keep] refuses
    dropped, annotations wrapped. *)
Definition description_rendering (keep : jsstring -> bool) (d : jsstring)
  : jsstring :=
  join [nl] (map annotate (filter keep (map trimEnd (split nl d)))).

(** The filter as the description of the renderer words it: only the lines
    that are exactly a comment delimiter are dropped. *)
Definition keep_unless_delimiter (line : jsstring) : bool :=
  negb (jsstring_eqb line (js "/**")) && negb (jsstring_eqb line (js "*/")).

(** The row of one entry in the quick pick. *)
Definition row_of (r : ApiEntry) : QuickPickItem :=
  mkItem (name r) (Some (signature r)) None.

(** *** The keyword [native] in a comment *)

(** [native], white space and a word character stand at the head of [s]. *)
Definition native_word_at (s : jsstring) : bool :=
  startsWith (js "native") s &&
  match skipn 6 s with
  | b :: t => is_space b && starts_word (drop_while is_space t)
  | [] => false
  end.

(** Somewhere in [s] the letters [native], be it as the end of a longer word,
    are followed by white space and a word character. *)
Fixpoint names_after_native (s : jsstring) : bool :=
  native_word_at s ||
  match s with
  | [] => false
  | _ :: s' => names_after_native s'
  end.

(** *** Texts of an expression, pieces of a text, states of a session *)

(** The texts an expression can consume, whatever the order of the tries. *)
Inductive lang : regex -> jsstring -> Prop :=
| lang_Eps : lang Eps []
| lang_Chr c : lang (Chr c) [c]
| lang_Cls (p : code_unit -> bool) a : p a = true -> lang (Cls p) [a]
| lang_Seq r1 r2 u v : lang r1 u -> lang r2 v -> lang (Seq r1 r2) (u ++ v)
| lang_Alt_l r1 r2 u : lang r1 u -> lang (Alt r1 r2) u
| lang_Alt_r r1 r2 u : lang r2 u -> lang (Alt r1 r2) u
| lang_Star_nil g r : lang (Star g r) []
| lang_Star_more g r u v :
    lang r u -> lang (Star g r) v -> lang (Star g r) (u ++ v)
| lang_Group i r u : lang r u -> lang (Group i r) u
| lang_Eol : lang Eol [].

(** From [st] to [st'] the matcher has consumed [w]. *)
Definition consumed (st st' : mstate) (w : jsstring) : Prop :=
  rest st = w ++ rest st' /\ pos st' = pos st + List.length w.

(** [kw\s+(\w+)], the shape of [native_re] and of [returns_re]. *)
Definition keyword_re (kw : jsstring) : regex :=
  Seq (lit kw) (Seq (plus ws) (Group 1 (plus wd))).

(** The delimiters and keywords that the block pattern spells out. *)
Definition block_keywords : list jsstring :=
  [js "/**"; js "*/"; js "native"; js "takes"; js "returns"].

(** What every state of a session satisfies: the handlers are registered
    only on a loaded, non-empty entry set with its index; a disposed quick
    pick is hidden and has its handlers; between one and 200 rows are on
    show; the names of the entries are identifiers. *)
Record session_ok (s : Session) : Prop := mkSessionOk {
  ok_listening : listening s = true ->
                 awaiting s = false /\ apiData s <> [] /\
                 fuse s = Some (mkFuse (apiData s) fuse_options);
  ok_disposed : disposed s = true -> visible s = false /\ listening s = true;
  ok_rows : 1 <= List.length (items s) <= 200;
  ok_names : Forall (fun e => is_identifier (name e) = true) (apiData s)
}.

(** [bs] are pieces of [s], one after the other, none over another. *)
Inductive pieces : list jsstring -> jsstring -> Prop :=
| pieces_nil s : pieces [] s
| pieces_cons b bs u t : pieces bs t -> pieces (b :: bs) (u ++ b ++ t).

(** ** Inputs of the examples *)

Definition foobar_text : jsstring :=
  js "/** doc */" ++ [nl] ++ js "native FooBar takes integer a returns boolean".

Definition baz_text : jsstring :=
  js "/** doc */" ++ [nl] ++ js "native Baz takes nothing returns nothing".

Definition getunit_text : jsstring :=
  js "/** the unit */" ++ [nl] ++
  js "native GetUnit takes player p, integer i returns unit".

(** A comment that uses the word [native]. *)
Definition native_in_comment_text : jsstring :=
  js "/** native code */" ++ [nl] ++
  js "native FooBar takes integer a returns boolean".

(** A declaration with nothing but two spaces between [takes] and
    [returns]. *)
Definition blank_parameters_text : jsstring :=
  js "/** d */" ++ [nl] ++ js "native F takes  returns x".

(** The same declaration with a block after it. *)
Definition blank_then_foobar_text : jsstring :=
  blank_parameters_text ++ [nl] ++ foobar_text.

(** A comment that spells out a declaration of its own. *)
Definition takes_in_comment_text : jsstring :=
  js "/** takes a returns b */" ++ [nl] ++ js "native F takes  returns x".

(** A comment with a word that ends in [native]. *)
Definition alternative_text : jsstring :=
  js "/** alternative x */" ++ [nl] ++
  js "native FooBar takes integer a returns boolean".

Definition boom : JsError := mkError (js "Error: Network Error").

(** Two fetches succeed and one is refused. *)
Definition one_refused : list settlement :=
  [(2, Fulfilled foobar_text); (1, Rejected boom); (3, Fulfilled baz_text)].

Definition all_fetched : list settlement :=
  [(2, Fulfilled foobar_text); (1, Fulfilled baz_text)].

(** A stand-in for the ranking of the library: the entries that hold the
    query in one of the three keys. *)
Definition substring_search (f : Fuse) (q : jsstring) : list ApiEntry :=
  filter (fun e => includes q (name e) || includes q (signature e)
                   || includes q (description e)) (docs f).

(** The session once [all_fetched] has settled. *)
Definition loaded : Session :=
  step substring_search fuzzySearch_start (FetchSettled all_fetched).

(** ** Proof steps *)

(** Lengths of appended texts and literals. *)
Ltac len_solve :=
  repeat (rewrite ?length_app; cbn [List.length]);
  repeat match goal with
         | |- context [List.length (js ?s)] =>
             let n := eval vm_compute in (List.length (js s)) in
             change (List.length (js s)) with n
         end;
  lia.

(** The character classes as bounds on the code unit. *)
Ltac class_bounds :=
  unfold is_word, is_space in *;
  repeat rewrite ?orb_true_iff, ?andb_true_iff, ?N.leb_le, ?N.eqb_eq in *;
  lia.

Ltac fields :=
  cbn [set_items set_busy set_data resumed listen dispose show_details
       busy items visible disposed awaiting apiData fuse listening
       details panels writes].

(** ** Equations of the matcher *)

Lemma orelse_None_r {A : Type} (x : option A) : orelse x None = x.
Proof. destruct x; reflexivity. Qed.

Lemma rmatch_Seq r1 r2 st k :
  rmatch (Seq r1 r2) st k = rmatch r1 st (fun st1 => rmatch r2 st1 k).
Proof. reflexivity. Qed.

Lemma rmatch_Group i r st k :
  rmatch (Group i r) st k = rmatch r st (fun st1 => k (set_cap i st st1)).
Proof. reflexivity. Qed.

Lemma rmatch_Chr c p a t cs k :
  rmatch (Chr c) (MState p (a :: t) cs) k =
  if N.eqb a c then k (MState (S p) t cs) else None.
Proof. reflexivity. Qed.

Lemma rmatch_Chr_nil c p cs k : rmatch (Chr c) (MState p [] cs) k = None.
Proof. reflexivity. Qed.

Lemma rmatch_Cls q p a t cs k :
  rmatch (Cls q) (MState p (a :: t) cs) k =
  if q a then k (MState (S p) t cs) else None.
Proof. reflexivity. Qed.

Lemma rmatch_Cls_nil q p cs k : rmatch (Cls q) (MState p [] cs) k = None.
Proof. reflexivity. Qed.

(** One turn of a quantifier over a character class. *)
Lemma rmatch_Star_Cls g q p a t cs k :
  rmatch (Star g (Cls q)) (MState p (a :: t) cs) k =
  if q a then
    if g then orelse (rmatch (Star g (Cls q)) (MState (S p) t cs) k)
                     (k (MState p (a :: t) cs))
    else orelse (k (MState p (a :: t) cs))
                (rmatch (Star g (Cls q)) (MState (S p) t cs) k)
  else k (MState p (a :: t) cs).
Proof.
  cbn [rmatch star_loop rest pos List.length adv tl caps].
  destruct (q a).
  - assert (E : (S p =? p) = false) by (apply Nat.eqb_neq; lia).
    rewrite E. reflexivity.
  - destruct g; [reflexivity | apply orelse_None_r].
Qed.

Lemma rmatch_Star_nil g r p cs k :
  rmatch (Star g r) (MState p [] cs) k = k (MState p [] cs).
Proof. reflexivity. Qed.

(** ** The matcher moves forward, and its bounds are never reached *)

Lemma ahead_refl st : ahead st st.
Proof. exists 0. unfold ahead_by. cbn [skipn]. repeat split; lia. Qed.

Lemma ahead_trans st1 st2 st3 : ahead st1 st2 -> ahead st2 st3 -> ahead st1 st3.
Proof.
  intros (n & Hp & Hr & Hn) (m & Hp' & Hr' & Hm).
  exists (n + m). rewrite Hr, length_skipn in Hm. repeat split.
  - lia.
  - rewrite Hr', Hr, skipn_skipn. f_equal. lia.
  - lia.
Qed.

Lemma ahead_adv st a t : rest st = a :: t -> ahead st (adv st).
Proof.
  intros H. exists 1. unfold ahead_by, adv. cbn [pos rest]. rewrite H.
  cbn [tl skipn List.length]. repeat split; lia.
Qed.

Lemma ahead_set_cap i st st1 : ahead st st1 -> ahead st (set_cap i st st1).
Proof. intros H. exact H. Qed.

Lemma orelse_Some {A} (x y : option A) res :
  orelse x y = Some res -> x = Some res \/ (x = None /\ y = Some res).
Proof. destruct x; cbn; intros H; [left | right]; auto. Qed.

Section Loop.
Variable step : mstate -> (mstate -> option mstate) -> option mstate.
Hypothesis step_ahead : forall st k res,
  step st k = Some res -> exists st', ahead st st' /\ k st' = Some res.

Lemma star_loop_ahead g k n : forall st res,
  star_loop step g k n st = Some res ->
  exists st', ahead st st' /\ k st' = Some res.
Proof.
  induction n as [|n IH]; intros st res H; cbn [star_loop] in H.
  - exists st. split; [apply ahead_refl | exact H].
  - assert (Hagain : forall res,
              step st (fun st1 => if pos st1 =? pos st then None
                                  else star_loop step g k n st1) = Some res ->
              exists st', ahead st st' /\ k st' = Some res).
    { intros res0 H0. apply step_ahead in H0 as (st1 & A1 & H1).
      destruct (pos st1 =? pos st); [discriminate|].
      apply IH in H1 as (st2 & A2 & H2).
      exists st2. split; [exact (ahead_trans _ _ _ A1 A2) | exact H2]. }
    destruct g; apply orelse_Some in H as [H | [_ H]]; auto;
      exists st; (split; [apply ahead_refl | exact H]).
Qed.
End Loop.

(** The matcher hands to its continuation only states further along the
    same input. *)
Lemma rmatch_ahead r : forall st k res,
  rmatch r st k = Some res -> exists st', ahead st st' /\ k st' = Some res.
Proof.
  induction r as [|c|q|r1 IH1 r2 IH2|r1 IH1 r2 IH2|g r1 IH1|i r1 IH1|];
    intros st k res H; cbn [rmatch] in H.
  - exists st. split; [apply ahead_refl | exact H].
  - destruct (rest st) as [|a t] eqn:E; [discriminate|].
    destruct (N.eqb a c); [|discriminate].
    exists (adv st). split; [exact (ahead_adv _ _ _ E) | exact H].
  - destruct (rest st) as [|a t] eqn:E; [discriminate|].
    destruct (q a); [|discriminate].
    exists (adv st). split; [exact (ahead_adv _ _ _ E) | exact H].
  - apply IH1 in H as (st1 & A1 & H). apply IH2 in H as (st2 & A2 & H).
    exists st2. split; [exact (ahead_trans _ _ _ A1 A2) | exact H].
  - apply orelse_Some in H as [H | [_ H]]; [apply IH1 | apply IH2]; exact H.
  - exact (star_loop_ahead _ IH1 g k _ st res H).
  - apply IH1 in H as (st1 & A1 & H).
    exists (set_cap i st st1). split; [exact A1 | exact H].
  - destruct (rest st) eqn:E; [|discriminate].
    exists st. split; [apply ahead_refl | exact H].
Qed.

Lemma rmatch_Some_ahead r st e : rmatch r st Some = Some e -> ahead st e.
Proof.
  intros H. apply rmatch_ahead in H as (st' & A & [= ->]). exact A.
Qed.

Lemma search_ahead r : forall s i m,
  search r i s = Some m ->
  exists j, m_index m = i + j /\ m_input m = skipn j s /\ j <= List.length s /\
            ahead (MState (m_index m) (m_input m) []) (m_end m).
Proof.
  induction s as [|a s IH]; intros i m; cbn [search];
    destruct (rmatch r _ Some) as [e|] eqn:E.
  - intros [= <-]. exists 0. cbn [m_index m_input m_end skipn List.length].
    split; [lia|]. split; [reflexivity|]. split; [lia|].
    exact (rmatch_Some_ahead _ _ _ E).
  - discriminate.
  - intros [= <-]. exists 0. cbn [m_index m_input m_end skipn List.length].
    split; [lia|]. split; [reflexivity|]. split; [lia|].
    exact (rmatch_Some_ahead _ _ _ E).
  - intros H. apply IH in H as (j & H1 & H2 & H3 & H4).
    exists (S j). cbn [skipn List.length].
    split; [lia|]. split; [exact H2|]. split; [lia | exact H4].
Qed.

(** The bound on the number of global matches is never reached: any two
    bounds above the length of the input give the same matches. *)
Lemma match_all_from_fuel r : forall fuel fuel' i s,
  List.length s < fuel -> List.length s < fuel' ->
  match_all_from fuel r i s = match_all_from fuel' r i s.
Proof.
  induction fuel as [|fuel IH]; intros fuel' i s H H'; [inversion H|].
  destruct fuel' as [|fuel']; [inversion H'|]. cbn [match_all_from].
  destruct (search r i s) as [m|] eqn:E; [|reflexivity].
  apply search_ahead in E as (j & E1 & E2 & E3 & (n & A1 & A2 & A3)).
  cbn [pos rest] in A1, A2, A3. f_equal.
  assert (Hlen : List.length (rest (m_end m)) = List.length s - j - n).
  { rewrite A2, E2, !length_skipn. reflexivity. }
  rewrite E2, length_skipn in A3.
  destruct (pos (m_end m) =? m_index m) eqn:Epos.
  - destruct (rest (m_end m)) as [|c s'] eqn:Er; [reflexivity|].
    cbn [List.length] in Hlen. apply IH; lia.
  - apply Nat.eqb_neq in Epos. apply IH; lia.
Qed.

Lemma match_all_fuel r s fuel :
  List.length s < fuel -> match_all r s = match_all_from fuel r 0 s.
Proof. intros H. apply match_all_from_fuel; [lia | exact H]. Qed.

Lemma rmatch_never r st : rmatch r st (fun _ => None) = None.
Proof.
  destruct (rmatch r st (fun _ => None)) as [res|] eqn:E; [|reflexivity].
  apply rmatch_ahead in E as (st' & _ & E). discriminate.
Qed.

Section LoopExt.
Variable step : mstate -> (mstate -> option mstate) -> option mstate.
Hypothesis step_ext : forall st k k',
  (forall st', ahead st st' -> k st' = k' st') -> step st k = step st k'.

Lemma star_loop_ext g k k' n : forall st,
  (forall st', ahead st st' -> k st' = k' st') ->
  star_loop step g k n st = star_loop step g k' n st.
Proof.
  induction n as [|n IH]; intros st H; cbn [star_loop].
  - apply H, ahead_refl.
  - rewrite (H st (ahead_refl st)).
    rewrite (step_ext st _
               (fun st1 => if pos st1 =? pos st then None
                           else star_loop step g k' n st1)); [reflexivity|].
    intros st1 A1. destruct (pos st1 =? pos st); [reflexivity|].
    apply IH. intros st2 A2. apply H. exact (ahead_trans _ _ _ A1 A2).
Qed.
End LoopExt.

(** The result of the matcher depends on its continuation only at the states
    further along the input. *)
Lemma rmatch_ext r : forall st k k',
  (forall st', ahead st st' -> k st' = k' st') -> rmatch r st k = rmatch r st k'.
Proof.
  induction r as [|c|q|r1 IH1 r2 IH2|r1 IH1 r2 IH2|g r1 IH1|i r1 IH1|];
    intros st k k' H; cbn [rmatch].
  - apply H, ahead_refl.
  - destruct (rest st) as [|a t] eqn:E; [reflexivity|].
    destruct (N.eqb a c); [|reflexivity]. apply H. exact (ahead_adv _ _ _ E).
  - destruct (rest st) as [|a t] eqn:E; [reflexivity|].
    destruct (q a); [|reflexivity]. apply H. exact (ahead_adv _ _ _ E).
  - apply IH1. intros st1 A1. apply IH2. intros st2 A2.
    apply H. exact (ahead_trans _ _ _ A1 A2).
  - rewrite (IH1 st k k' H), (IH2 st k k' H). reflexivity.
  - apply star_loop_ext; [exact IH1 | exact H].
  - apply IH1. intros st1 A1. apply H. exact A1.
  - destruct (rest st); [apply H, ahead_refl | reflexivity].
Qed.

(** The bound on the turns of a quantifier is never reached: any bound at
    least the length of the input left gives the same result. *)
Lemma star_loop_fuel r g k : forall n st,
  List.length (rest st) <= n ->
  star_loop (rmatch r) g k n st =
  star_loop (rmatch r) g k (List.length (rest st)) st.
Proof.
  induction n as [n IH] using lt_wf_ind. intros st Hn.
  destruct n as [|n].
  - replace (List.length (rest st)) with 0 by lia. reflexivity.
  - destruct (List.length (rest st)) as [|l] eqn:El.
    + cbn [star_loop].
      rewrite (rmatch_ext r st _ (fun _ => None)).
      * rewrite rmatch_never. destruct g; [reflexivity | apply orelse_None_r].
      * intros st1 (m & A1 & A2 & A3).
        replace (pos st1 =? pos st) with true; [reflexivity|].
        symmetry. apply Nat.eqb_eq. lia.
    + cbn [star_loop].
      rewrite (rmatch_ext r st _
                 (fun st1 => if pos st1 =? pos st then None
                             else star_loop (rmatch r) g k l st1)); [reflexivity|].
      intros st1 (m & A1 & A2 & A3).
      destruct (pos st1 =? pos st) eqn:Ep; [reflexivity|].
      apply Nat.eqb_neq in Ep.
      assert (Hl : List.length (rest st1) <= l).
      { rewrite A2, length_skipn. lia. }
      rewrite (IH n) by lia. symmetry. apply IH; lia.
Qed.

(** ** Runs of characters, literals and quantifiers *)

Lemma rmatch_lit s : forall p t cs k,
  rmatch (lit s) (MState p (s ++ t) cs) k = k (MState (p + List.length s) t cs).
Proof.
  induction s as [|a s IH]; intros p t cs k.
  - cbn [lit app List.length]. rewrite Nat.add_0_r. reflexivity.
  - cbn [lit app List.length]. rewrite rmatch_Seq, rmatch_Chr, N.eqb_refl, IH.
    f_equal. f_equal. lia.
Qed.

Lemma rmatch_lit_no s : forall p t cs k,
  startsWith s t = false -> rmatch (lit s) (MState p t cs) k = None.
Proof.
  induction s as [|a s IH]; intros p t cs k H.
  - discriminate.
  - destruct t as [|b t]; [reflexivity|].
    cbn [lit]. rewrite rmatch_Seq, rmatch_Chr.
    cbn [startsWith] in H. rewrite N.eqb_sym.
    destruct (N.eqb a b); [apply IH; exact H | reflexivity].
Qed.

(** A greedy quantifier takes the whole run when what follows succeeds there. *)
Lemma greedy_run q w : forall p t cs k res,
  forallb q w = true ->
  match t with [] => true | a :: _ => negb (q a) end = true ->
  k (MState (p + List.length w) t cs) = Some res ->
  rmatch (Star true (Cls q)) (MState p (w ++ t) cs) k = Some res.
Proof.
  induction w as [|a w IH]; intros p t cs k res Hw Ht Hk.
  - cbn [app List.length] in *. rewrite Nat.add_0_r in Hk.
    destruct t as [|b t]; [exact Hk|].
    rewrite rmatch_Star_Cls. apply negb_true_iff in Ht. rewrite Ht. exact Hk.
  - cbn [forallb] in Hw. apply andb_true_iff in Hw as [Ha Hw].
    cbn [app]. rewrite rmatch_Star_Cls, Ha.
    rewrite (IH (S p) t cs k res Hw Ht); [reflexivity|].
    cbn [List.length] in Hk. rewrite <- Hk. f_equal. f_equal. lia.
Qed.

(** A lazy [[\s\S]*?] passes over a stretch where what follows fails. *)
Lemma lazy_skip v : forall p t cs k,
  (forall v1 v2, v = v1 ++ v2 -> v2 <> [] ->
     k (MState (p + List.length v1) (v2 ++ t) cs) = None) ->
  rmatch (Star false any) (MState p (v ++ t) cs) k =
  rmatch (Star false any) (MState (p + List.length v) t cs) k.
Proof.
  induction v as [|a v IH]; intros p t cs k H.
  - cbn. rewrite Nat.add_0_r. reflexivity.
  - cbn [app]. unfold any. rewrite rmatch_Star_Cls.
    assert (H0 := H [] (a :: v) eq_refl ltac:(discriminate)).
    cbn [List.length app] in H0. rewrite Nat.add_0_r in H0. rewrite H0.
    cbn [orelse List.length]. fold any. rewrite IH.
    + f_equal. f_equal. lia.
    + intros v1 v2 E Hne. specialize (H (a :: v1) v2).
      cbn [List.length app] in H. rewrite <- H; [|congruence|exact Hne].
      f_equal. f_equal. lia.
Qed.

Lemma lazy_now p t cs k res :
  k (MState p t cs) = Some res ->
  rmatch (Star false any) (MState p t cs) k = Some res.
Proof.
  intros H. destruct t as [|a t].
  - rewrite rmatch_Star_nil. exact H.
  - unfold any. rewrite rmatch_Star_Cls, H. reflexivity.
Qed.

Lemma ends_at_pos o p p' t : ends_at o p t -> p = p' -> ends_at o p' t.
Proof. intros H <-. exact H. Qed.

(** Characters *)
Lemma word_not_space a : is_word a = true -> is_space a = false.
Proof. intros H. destruct (is_space a) eqn:E; [exfalso; class_bounds | reflexivity]. Qed.

Lemma space_not_word a : is_space a = true -> is_word a = false.
Proof. intros H. destruct (is_word a) eqn:E; [exfalso; class_bounds | reflexivity]. Qed.

(** [c+] over a class takes a whole non-empty run. *)
Lemma plus_run q w p t cs k pe te :
  w <> [] -> forallb q w = true -> stops q t = true ->
  ends_at (k (MState (p + List.length w) t cs)) pe te ->
  ends_at (rmatch (plus (Cls q)) (MState p (w ++ t) cs) k) pe te.
Proof.
  intros Hne Hw Ht [cs' Hk]. exists cs'. destruct w as [|a w]; [congruence|].
  cbn [forallb] in Hw. apply andb_true_iff in Hw as [Ha Hw].
  unfold plus. rewrite rmatch_Seq. cbn [app]. rewrite rmatch_Cls, Ha.
  apply greedy_run; [exact Hw | exact Ht |].
  rewrite <- Hk. cbn [List.length]. f_equal. f_equal. lia.
Qed.

Lemma lazy_now_ends p t cs k pe te :
  ends_at (k (MState p t cs)) pe te ->
  ends_at (rmatch (Star false any) (MState p t cs) k) pe te.
Proof. intros [cs' H]. exists cs'. apply lazy_now. exact H. Qed.

Lemma includes_cons s a v :
  includes s (a :: v) = false ->
  startsWith s (a :: v) = false /\ includes s v = false.
Proof. cbn [includes]. intros H. apply orb_false_iff in H. exact H. Qed.

Lemma includes_app_r s u v : includes s (u ++ v) = false -> includes s v = false.
Proof.
  induction u as [|a u IH]; intros H; [exact H|].
  apply IH. cbn [app] in H. apply includes_cons in H. apply H.
Qed.

Lemma includes_startsWith s v : includes s v = false -> startsWith s v = false.
Proof.
  destruct v; cbn [includes]; intros H; apply orb_false_iff in H; apply H.
Qed.

(** A pattern that lacks the character [a] cannot straddle it. *)
Lemma startsWith_before s : forall v a x,
  existsb (N.eqb a) s = false ->
  startsWith s (v ++ a :: x) = true -> startsWith s v = true.
Proof.
  induction s as [|c s IH]; intros v a x Hs H; [reflexivity|].
  cbn [existsb] in Hs. apply orb_false_iff in Hs as [Hc Hs].
  destruct v as [|b v]; cbn [app startsWith] in *.
  - apply andb_true_iff in H as [H _]. rewrite N.eqb_sym in Hc. congruence.
  - apply andb_true_iff in H as [H1 H2]. rewrite H1. cbn [andb].
    exact (IH v a x Hs H2).
Qed.

Lemma forallb_false_existsb (q : code_unit -> bool) v :
  forallb q v = false -> existsb (fun a => negb (q a)) v = true.
Proof.
  induction v as [|a v IH]; cbn [forallb existsb]; [discriminate|].
  destruct (q a); cbn [andb negb orb]; [exact IH | reflexivity].
Qed.

Lemma is_identifier_inv s :
  is_identifier s = true -> s <> [] /\ forallb is_word s = true.
Proof. destruct s; [discriminate|]. intros H. split; [discriminate | exact H]. Qed.

Lemma identifier_stops_ws T t :
  is_identifier T = true -> stops is_space (T ++ t) = true.
Proof.
  destruct T as [|a T]; [discriminate|]. cbn [is_identifier forallb app stops].
  intros H. apply andb_true_iff in H as [H _].
  rewrite (word_not_space _ H). reflexivity.
Qed.

(** The return clause matches where only white space precedes the keyword. *)
Lemma returns_clause_here w T t p cs :
  forallb is_space w = true -> is_identifier T = true -> stops is_word t = true ->
  ends_at (rmatch returns_clause (MState p (w ++ returns_text T ++ t) cs) Some)
          (p + List.length (w ++ returns_text T)) t.
Proof.
  intros Hw HT Ht. apply is_identifier_inv in HT as HT'. destruct HT' as [HTne HTw].
  unfold returns_clause, returns_text. rewrite rmatch_Seq.
  change (w ++ (sp :: js "returns" ++ sp :: T) ++ t)
    with (w ++ [sp] ++ js "returns" ++ [sp] ++ T ++ t).
  rewrite (app_assoc w [sp]).
  apply plus_run.
  - destruct w; discriminate.
  - rewrite forallb_app, Hw. reflexivity.
  - reflexivity.
  - cbv beta. rewrite rmatch_Seq, rmatch_lit. rewrite rmatch_Seq.
    apply (plus_run is_space [sp]); [discriminate | reflexivity | |].
    + apply identifier_stops_ws. exact HT.
    + rewrite rmatch_Group. apply plus_run; [exact HTne | exact HTw | exact Ht |].
      eexists. unfold set_cap. cbn [pos rest caps]. f_equal. f_equal. len_solve.
Qed.

Lemma returns_no_space : existsb (N.eqb sp) (js "returns") = false.
Proof. reflexivity. Qed.

Lemma keyword_in_false_true s :
  keyword_in true s = false -> keyword_in false s = false.
Proof.
  destruct s as [|a s]; [reflexivity|]. cbn [keyword_in andb orb].
  intros H. apply orb_false_iff in H. apply H.
Qed.

Lemma keyword_in_tail b a s :
  keyword_in b (a :: s) = false -> keyword_in (is_space a) s = false.
Proof. cbn [keyword_in]. intros H. apply orb_false_iff in H. apply H. Qed.

Lemma mentions_returns_tail a s :
  mentions_returns (a :: s) = false -> mentions_returns s = false.
Proof.
  intros H. apply keyword_in_tail in H. destruct (is_space a); [|exact H].
  apply keyword_in_false_true. exact H.
Qed.

Lemma startsWith_split s : forall v,
  startsWith s v = true -> v = s ++ skipn (List.length s) v.
Proof.
  induction s as [|c s IH]; intros v H; [reflexivity|].
  destruct v as [|b v]; [discriminate|]. cbn [startsWith] in H.
  apply andb_true_iff in H as [H1 H2]. apply N.eqb_eq in H1. subst b.
  cbn [List.length skipn app]. f_equal. exact (IH v H2).
Qed.

(** Where the keyword does not stand as a word, [returns\s+...] fails. *)
Lemma returns_here_fails v p x cs R k :
  returns_word_at v = false ->
  rmatch (Seq (lit (js "returns")) (Seq (plus ws) R))
         (MState p (v ++ sp :: x) cs) k = None.
Proof.
  intros H. rewrite rmatch_Seq.
  destruct (startsWith (js "returns") (v ++ sp :: x)) eqn:E.
  - apply (startsWith_before _ v sp x returns_no_space) in E.
    unfold returns_word_at in H. rewrite E in H. cbn [andb] in H.
    rewrite (startsWith_split _ _ E) at 1. rewrite <- app_assoc, rmatch_lit.
    change (List.length (js "returns")) with 7.
    destruct (skipn 7 v) as [|b u]; [discriminate|].
    rewrite rmatch_Seq. unfold plus. rewrite rmatch_Seq. cbn [app].
    unfold ws at 1. rewrite rmatch_Cls, H. reflexivity.
  - apply rmatch_lit_no. exact E.
Qed.

(** Backing out of a white-space run never uncovers the keyword. *)
Lemma ws_then_returns_fails v : forall p x cs R k,
  has_text v = true -> keyword_in true v = false ->
  rmatch (Star true ws) (MState p (v ++ sp :: x) cs)
         (fun st1 => rmatch (Seq (lit (js "returns")) (Seq (plus ws) R)) st1 k) = None.
Proof.
  induction v as [|a v IH]; intros p x cs R k Hv Hr; [discriminate|].
  cbn [app]. unfold ws. rewrite rmatch_Star_Cls. fold ws.
  cbn [has_text existsb] in Hv.
  assert (Hhere : rmatch (Seq (lit (js "returns")) (Seq (plus ws) R))
                         (MState p (a :: v ++ sp :: x) cs) k = None).
  { apply (returns_here_fails (a :: v)).
    cbn [keyword_in andb] in Hr. apply orb_false_iff in Hr. apply Hr. }
  apply keyword_in_tail in Hr.
  destruct (is_space a) eqn:Ha.
  - cbn [negb orb] in Hv. rewrite (IH _ _ _ _ _ Hv Hr). exact Hhere.
  - exact Hhere.
Qed.

Lemma returns_clause_fails v p x cs R k :
  has_text v = true -> mentions_returns v = false ->
  rmatch (Seq (plus ws) (Seq (lit (js "returns")) (Seq (plus ws) R)))
         (MState p (v ++ sp :: x) cs) k = None.
Proof.
  intros Hv Hr. destruct v as [|a v]; [discriminate|].
  rewrite rmatch_Seq. unfold plus at 1. rewrite rmatch_Seq. cbn [app].
  unfold ws at 1. rewrite rmatch_Cls.
  destruct (is_space a) eqn:Ha; [|reflexivity].
  cbn [has_text existsb] in Hv. rewrite Ha in Hv. cbn [negb orb] in Hv.
  apply keyword_in_tail in Hr. rewrite Ha in Hr.
  apply ws_then_returns_fails; assumption.
Qed.

(** The lazy parameter span stops at the white space before the keyword. *)
Lemma params_span v : forall T t p cs st0,
  mentions_returns v = false ->
  is_identifier T = true -> stops is_word t = true ->
  ends_at
    (rmatch (Star false any) (MState p (v ++ returns_text T ++ t) cs)
       (fun st1 => (fun st2 => rmatch returns_clause st2 Some) (set_cap 2 st0 st1)))
    (p + List.length (v ++ returns_text T)) t.
Proof.
  induction v as [|a v IH]; intros T t p cs st0 Hr HT Ht.
  - apply lazy_now_ends.
    exact (returns_clause_here [] T t p _ eq_refl HT Ht).
  - destruct (forallb is_space (a :: v)) eqn:Hall.
    + apply lazy_now_ends.
      exact (returns_clause_here (a :: v) T t p _ Hall HT Ht).
    + apply forallb_false_existsb in Hall.
      cbn [app]. unfold any. rewrite rmatch_Star_Cls. fold any.
      cbv beta. unfold set_cap at 1. cbn [pos rest caps].
      unfold returns_clause at 1.
      change (a :: v ++ returns_text T ++ t)
        with ((a :: v) ++ sp :: (js "returns" ++ sp :: T) ++ t).
      rewrite returns_clause_fails by assumption.
      cbn [orelse].
      eapply ends_at_pos.
      * apply IH; [|exact HT|exact Ht]. exact (mentions_returns_tail _ _ Hr).
      * len_solve.
Qed.

(** After [takes], the greedy white space stops at the first character of the
    parameter text and the rest of the declaration follows. *)
Lemma params_after_ws P : forall T t p cs,
  has_text P = true -> mentions_returns P = false ->
  is_identifier T = true -> stops is_word t = true ->
  ends_at
    (rmatch (Star true ws) (MState p (P ++ returns_text T ++ t) cs)
       (fun st1 => rmatch params_clause st1 Some))
    (p + List.length (P ++ returns_text T)) t.
Proof.
  induction P as [|a P IH]; intros T t p cs HP Hr HT Ht; [discriminate|].
  cbn [app]. unfold ws. rewrite rmatch_Star_Cls. fold ws.
  destruct (is_space a) eqn:Ha.
  - cbn [has_text existsb] in HP. rewrite Ha in HP. cbn [negb orb] in HP.
    apply mentions_returns_tail in Hr.
    destruct (IH T t (S p) cs HP Hr HT Ht) as [cs' E].
    exists cs'. rewrite E. cbn [orelse]. f_equal. f_equal. len_solve.
  - unfold params_clause. rewrite rmatch_Seq, rmatch_Group.
    exact (params_span (a :: P) T t p cs _ Hr HT Ht).
Qed.

Lemma comment_not_closed c x : forall v1 v2,
  includes (js "*/") c = false -> c = v1 ++ v2 -> v2 <> [] ->
  startsWith (js "*/") (v2 ++ js "*/" ++ x) = false.
Proof.
  intros v1 v2 Hc -> Hne. apply includes_app_r in Hc.
  destruct v2 as [|a v2]; [congruence|].
  apply includes_cons in Hc as [Hc _].
  destruct v2 as [|b v2]; cbn [app startsWith js list_ascii_of_string map] in *.
  - destruct (N.eqb (cu "*") a); reflexivity.
  - destruct (N.eqb (cu "*") a); [|reflexivity].
    destruct (N.eqb (cu "/") b); [discriminate | reflexivity].
Qed.

Lemma block_app c N P T t :
  block c N P T ++ t =
  js "/**" ++ c ++ js "*/" ++ nl :: js "native" ++ sp :: N ++
  sp :: js "takes" ++ sp :: P ++ returns_text T ++ t.
Proof. unfold block, returns_text. repeat rewrite <- app_assoc. reflexivity. Qed.

Lemma block_length c N P T :
  List.length (block c N P T) =
  List.length c + List.length N + List.length P + List.length T + 29.
Proof. unfold block. len_solve. Qed.

Lemma block_re_matches c N P T t p :
  includes (js "*/") c = false ->
  is_identifier N = true ->
  has_text P = true -> mentions_returns P = false ->
  is_identifier T = true -> stops is_word t = true ->
  ends_at (rmatch block_re (MState p (block c N P T ++ t) []) Some)
          (p + List.length (block c N P T)) t.
Proof.
  intros Hc HN HP Hr HT Ht.
  destruct (is_identifier_inv _ HN) as [HNne HNw].
  rewrite block_app.
  unfold block_re. rewrite rmatch_Seq, rmatch_lit, rmatch_Seq.
  rewrite lazy_skip.
  2: { intros v1 v2 Ev Hne. rewrite rmatch_Seq. apply rmatch_lit_no.
       exact (comment_not_closed c _ v1 v2 Hc Ev Hne). }
  apply lazy_now_ends.
  rewrite rmatch_Seq, rmatch_lit, rmatch_Seq.
  (* [\s*] takes the line break and gives it back *)
  unfold ws at 1. rewrite rmatch_Star_Cls.
  change (is_space nl) with true. cbv iota.
  change (js "native" ++ sp :: N ++ sp :: js "takes" ++ sp :: P ++ returns_text T ++ t)
    with (cu "n"%char :: js "ative" ++ sp :: N ++ sp :: js "takes" ++ sp :: P ++ returns_text T ++ t) at 1.
  rewrite rmatch_Star_Cls. change (is_space (cu "n")) with false. cbv iota.
  rewrite rmatch_Seq. rewrite (rmatch_Chr nl _ (cu "n"%char)).
  change (N.eqb (cu "n") nl) with false. cbv iota. cbn [orelse].
  rewrite rmatch_Seq, rmatch_Chr. change (N.eqb nl nl) with true. cbv iota.
  rewrite rmatch_Seq, rmatch_lit, rmatch_Seq.
  apply (plus_run is_space [sp]); [discriminate | reflexivity | |].
  { apply (identifier_stops_ws N). exact HN. }
  rewrite rmatch_Seq, rmatch_Group.
  apply plus_run; [exact HNne | exact HNw | reflexivity |].
  unfold set_cap. cbn [pos rest caps].
  rewrite rmatch_Seq.
  apply (plus_run is_space [sp]); [discriminate | reflexivity | reflexivity |].
  rewrite rmatch_Seq, rmatch_lit, rmatch_Seq.
  unfold plus at 1. rewrite rmatch_Seq. unfold ws at 1. rewrite rmatch_Cls.
  change (is_space sp) with true. cbv iota.
  change (Seq (Group 2 (Star false any))
      (Seq (plus ws)
         (Seq (lit (js "returns")) (Seq (plus ws) (Group 3 (plus wd))))))
    with params_clause.
  eapply ends_at_pos.
  - apply params_after_ws; assumption.
  - rewrite block_length. unfold returns_text. len_solve.
Qed.

Lemma search_here r i s e :
  rmatch r (MState i s []) Some = Some e ->
  search r i s = Some (MatchResult i s e).
Proof. intros H. destruct s; cbn [search]; rewrite H; reflexivity. Qed.

Lemma search_skip r i a s :
  rmatch r (MState i (a :: s) []) Some = None ->
  search r i (a :: s) = search r (S i) s.
Proof. intros H. cbn [search]. rewrite H. reflexivity. Qed.

Lemma search_nil r i :
  rmatch r (MState i [] []) Some = None -> search r i [] = None.
Proof. intros H. cbn [search]. rewrite H. reflexivity. Qed.

Lemma block_re_needs_opener t i k :
  startsWith (js "/**") t = false -> rmatch block_re (MState i t []) k = None.
Proof. intros H. unfold block_re. rewrite rmatch_Seq. apply rmatch_lit_no. exact H. Qed.

Lemma search_block b t i :
  well_formed_block b -> stops is_word t = true ->
  exists cs,
    search block_re i (b ++ t) =
    Some (MatchResult i (b ++ t) (MState (i + List.length b) t cs)).
Proof.
  intros (c & N & P & T & -> & Hc & HN & HP & Hr & HT) Ht.
  destruct (block_re_matches c N P T t i Hc HN HP Hr HT Ht) as [cs E].
  exists cs. apply search_here. exact E.
Qed.

Lemma search_space sep : forall t i,
  forallb is_space sep = true ->
  search block_re i (sep ++ t) = search block_re (i + List.length sep) t.
Proof.
  induction sep as [|a sep IH]; intros t i H.
  - cbn [app List.length]. rewrite Nat.add_0_r. reflexivity.
  - cbn [forallb] in H. apply andb_true_iff in H as [Ha H].
    cbn [app]. rewrite search_skip.
    + rewrite IH by exact H. f_equal. cbn [List.length]. lia.
    + apply block_re_needs_opener. cbn [js list_ascii_of_string map startsWith].
      destruct (N.eqb (cu "/") a) eqn:E; [|reflexivity].
      apply N.eqb_eq in E. subst a. discriminate.
Qed.

Lemma match_all_from_search fuel r i s i' s' :
  search r i s = search r i' s' ->
  match_all_from fuel r i s = match_all_from fuel r i' s'.
Proof. intros H. destruct fuel; cbn [match_all_from]; [reflexivity|]. rewrite H. reflexivity. Qed.

Lemma matched_block i b t cs :
  matched (MatchResult i (b ++ t) (MState (i + List.length b) t cs)) = b.
Proof.
  unfold matched. cbn [m_end m_index m_input pos].
  replace (i + List.length b - i) with (List.length b + 0) by lia.
  rewrite firstn_app_2. cbn [firstn]. apply app_nil_r.
Qed.

Lemma block_starts b :
  well_formed_block b -> exists b', b = cu "/"%char :: b'.
Proof. intros (c & N & P & T & -> & _). eexists. reflexivity. Qed.

Lemma block_nonempty b : well_formed_block b -> 0 < List.length b.
Proof. intros H. destruct (block_starts b H) as [b' ->]. cbn. lia. Qed.

(** What follows a block in a run of blocks ends the identifier of its
    return type. *)
Lemma stops_after_block sep b bs :
  forallb is_space sep = true -> well_formed_block b ->
  stops is_word (sep ++ join sep (b :: bs)) = true.
Proof.
  intros Hs Hb. destruct sep as [|a sep].
  - destruct (block_starts b Hb) as [b' ->]. destruct bs; reflexivity.
  - cbn [forallb] in Hs. apply andb_true_iff in Hs as [Ha _].
    cbn [app stops]. rewrite (space_not_word a Ha). reflexivity.
Qed.

(** The global match of a run of well-formed blocks is the blocks. *)
Lemma match_all_blocks sep bs : forall fuel i,
  forallb is_space sep = true -> Forall well_formed_block bs ->
  List.length bs < fuel ->
  match_all_from fuel block_re i (join sep bs) = bs.
Proof.
  induction bs as [|b bs IH]; intros fuel i Hs Hbs Hf.
  - destruct fuel; [inversion Hf|]. reflexivity.
  - inversion Hbs as [|? ? Hb Hbs']; subst.
    destruct fuel as [|fuel]; [inversion Hf|]. cbn [List.length] in Hf.
    assert (Hpos := block_nonempty b Hb).
    destruct bs as [|b2 bs].
    + cbn [join]. cbn [match_all_from].
      destruct (search_block b [] i Hb eq_refl) as [cs E].
      rewrite app_nil_r in E at 1. rewrite E.
      rewrite matched_block. cbn [m_end m_index pos rest].
      replace (i + List.length b =? i) with false by (symmetry; apply Nat.eqb_neq; lia).
      f_equal. destruct fuel; reflexivity.
    + change (join sep (b :: b2 :: bs)) with (b ++ sep ++ join sep (b2 :: bs)).
      inversion Hbs' as [|? ? Hb2 _]; subst.
      cbn [match_all_from].
      destruct (search_block b (sep ++ join sep (b2 :: bs)) i Hb
                  (stops_after_block sep b2 bs Hs Hb2)) as [cs E].
      rewrite E, matched_block. cbn [m_end m_index pos rest].
      replace (i + List.length b =? i) with false by (symmetry; apply Nat.eqb_neq; lia).
      f_equal.
      rewrite (match_all_from_search fuel block_re _ _ _ _ (search_space sep _ _ Hs)).
      apply IH; [exact Hs | exact Hbs' | lia].
Qed.

Lemma blocks_length sep bs :
  Forall well_formed_block bs -> List.length bs <= List.length (join sep bs).
Proof.
  induction 1 as [|b bs Hb Hbs IH]; [reflexivity|].
  assert (Hpos := block_nonempty b Hb).
  destruct bs as [|b2 bs].
  - cbn [join List.length]. lia.
  - change (join sep (b :: b2 :: bs)) with (b ++ sep ++ join sep (b2 :: bs)).
    rewrite !length_app. cbn [List.length] in *. lia.
Qed.

Lemma parse_blocks sep bs :
  forallb is_space sep = true -> Forall well_formed_block bs ->
  parseApiDocumentation [join sep bs] = map entry_of bs.
Proof.
  intros Hs Hbs. unfold parseApiDocumentation, match_all. cbn [join].
  rewrite match_all_blocks; [reflexivity | exact Hs | exact Hbs |].
  pose proof (blocks_length sep bs Hbs). lia.
Qed.

(** C2. Two consecutive well-formed blocks give exactly two entries, each the
    entry that its block gives alone.  A block is a comment [/** ... */] whose
    text holds no [*/], a line break, and [native N takes P returns T] where [N]
    and [T] are identifiers and [P] is not blank and holds no word [returns];
    white space, possibly none, separates the two blocks. *)
Theorem two_blocks_two_entries b1 b2 sep :
  well_formed_block b1 -> well_formed_block b2 ->
  forallb is_space sep = true ->
  parseApiDocumentation [b1] = [entry_of b1] /\
  parseApiDocumentation [b2] = [entry_of b2] /\
  parseApiDocumentation [b1 ++ sep ++ b2] = [entry_of b1; entry_of b2] /\
  parseApiDocumentation [b1; b2] = [entry_of b1; entry_of b2] /\
  description (entry_of b1) = b1 /\ description (entry_of b2) = b2.
Proof.
  intros H1 H2 Hs.
  assert (Hb : Forall well_formed_block [b1; b2])
    by (repeat constructor; assumption).
  repeat split.
  - exact (parse_blocks [] [b1] eq_refl (Forall_cons _ H1 (Forall_nil _))).
  - exact (parse_blocks [] [b2] eq_refl (Forall_cons _ H2 (Forall_nil _))).
  - exact (parse_blocks sep [b1; b2] Hs Hb).
  - exact (parse_blocks [nl] [b1; b2] eq_refl Hb).
Qed.

Lemma foobar_well_formed : well_formed_block foobar_text.
Proof.
  exists (js " doc "), (js "FooBar"), (js "integer a"), (js "boolean").
  repeat split.
Qed.

Lemma getunit_well_formed : well_formed_block getunit_text.
Proof.
  exists (js " the unit "), (js "GetUnit"), (js "player p, integer i"), (js "unit").
  repeat split.
Qed.

(** The [FooBar] block and the [GetUnit] block on consecutive lines. *)
Lemma two_blocks_two_entries_witness :
  parseApiDocumentation [foobar_text ++ [nl] ++ getunit_text] =
  [entry_of foobar_text; entry_of getunit_text].
Proof.
  apply (two_blocks_two_entries foobar_text getunit_text [nl]).
  - exact foobar_well_formed.
  - exact getunit_well_formed.
  - reflexivity.
Defined.

(** Outside those blocks the two can merge: with blank parameter text the
    white space after [takes] swallows the one before [returns], and the
    lazy span runs on to the [returns] of the next block. *)
Example blank_parameters_merge :
  map name (parseApiDocumentation [blank_parameters_text]) = [js "F"] /\
  map name (parseApiDocumentation [blank_parameters_text ++ [nl] ++ foobar_text])
  = [js "F"].
Proof. split; vm_compute; reflexivity. Qed.

(** C1. The text [/** doc */], a line break,
    [native FooBar takes integer a returns boolean] gives exactly one entry,
    with name [FooBar] and signature [FooBar(integer a): boolean]. *)
Theorem foobar_single_entry :
  parseApiDocumentation [foobar_text] =
  [mkApiEntry (js "FooBar") (js "FooBar(integer a): boolean") foobar_text].
Proof. vm_compute. reflexivity. Qed.

(** The expression matches at the keyword of the declaration. *)
Lemma native_re_at N t i :
  is_identifier N = true -> stops is_word t = true ->
  rmatch native_re (MState i (js "native" ++ sp :: N ++ t) []) Some =
  Some (MState (i + 7 + List.length N) t [(1, N)]).
Proof.
  intros HN Ht. destruct (is_identifier_inv _ HN) as [HNne HNw].
  unfold native_re. rewrite rmatch_Seq, rmatch_lit, rmatch_Seq.
  unfold plus at 1. rewrite rmatch_Seq. unfold ws at 1. rewrite rmatch_Cls.
  change (is_space sp) with true. cbv iota.
  apply (greedy_run is_space []); [reflexivity | |].
  { exact (identifier_stops_ws N t HN). }
  cbn [List.length]. rewrite rmatch_Group.
  destruct N as [|n0 N']; [congruence|].
  cbn [forallb] in HNw. apply andb_true_iff in HNw as [Hn0 HNw].
  unfold plus. rewrite rmatch_Seq. cbn [app]. unfold wd at 1.
  rewrite rmatch_Cls, Hn0.
  apply (greedy_run is_word N'); [exact HNw | exact Ht |].
  unfold set_cap. cbn [pos rest caps]. f_equal. f_equal.
  - change (List.length (js "native")) with 6. cbn [List.length]. lia.
  - f_equal. f_equal.
    match goal with |- firstn ?n _ = _ =>
      replace n with (List.length (n0 :: N') + 0)
        by (change (List.length (js "native")) with 6; cbn [List.length]; lia)
    end.
    change (firstn (List.length (n0 :: N') + 0) ((n0 :: N') ++ t) = n0 :: N').
    rewrite firstn_app_2. cbn [firstn]. apply app_nil_r.
Qed.

(** C3. The name of an entry is meant to be the identifier declared after
    the [native] of the declaration; the code takes the identifier after the
    first [native] of the whole block, so a comment that says [native code]
    names the entry [code]. *)
Theorem name_taken_from_comment :
  parseApiDocumentation [native_in_comment_text] =
  [mkApiEntry (js "code") (js "code(integer a): boolean") native_in_comment_text].
Proof. vm_compute. reflexivity. Qed.

(** C4. [native Baz takes nothing returns nothing] has the signature
    [Baz(nothing): nothing], and a declaration with blank parameter text that
    stands alone has the parameters [nothing]; but when a block follows it,
    the white space after [takes] takes both blanks, the parameter span runs
    on to the [returns] of the next declaration, and the one entry has that
    text for its parameters instead of [nothing]. *)
Theorem blank_parameters_take_next_block :
  parseApiDocumentation [baz_text] =
    [mkApiEntry (js "Baz") (js "Baz(nothing): nothing") baz_text] /\
  parseApiDocumentation [blank_parameters_text] =
    [mkApiEntry (js "F") (js "F(nothing): x") blank_parameters_text] /\
  parseApiDocumentation [blank_then_foobar_text] =
    [mkApiEntry (js "F")
       (js "F(returns x" ++ [nl] ++ js "/** doc */" ++ [nl] ++
        js "native FooBar takes integer a): x")
       blank_then_foobar_text].
Proof. repeat split; vm_compute; reflexivity. Qed.

(** The parameters and the return type are searched in the whole block, as
    the name is: a comment that holds [takes a returns b] gives them.  With
    no character between the keywords the block pattern does not match. *)
Example parameters_taken_from_comment :
  parseApiDocumentation [takes_in_comment_text] =
    [mkApiEntry (js "F") (js "F(a): b") takes_in_comment_text] /\
  parseApiDocumentation
    [js "/** d */" ++ [nl] ++ js "native F takes returns x"] = [].
Proof. split; vm_compute; reflexivity. Qed.

(** ** The two replacements of the detail renderer *)

Lemma search_index r : forall s i m, search r i s = Some m -> i <= m_index m.
Proof.
  induction s as [|a s IH]; intros i m; cbn [search];
    destruct (rmatch r _ Some).
  - intros [= <-]. apply Nat.le_refl.
  - discriminate.
  - intros [= <-]. apply Nat.le_refl.
  - intros H. apply IH in H. lia.
Qed.

(** *** Trailing white space *)

Lemma ws_run_to_end s : forall i cs,
  rmatch (Star true ws) (MState i s cs) (fun st => rmatch Eol st Some) =
  if forallb is_space s then Some (MState (i + List.length s) [] cs) else None.
Proof.
  induction s as [|a s IH]; intros i cs.
  - rewrite rmatch_Star_nil. cbn. rewrite Nat.add_0_r. reflexivity.
  - unfold ws. rewrite rmatch_Star_Cls. fold ws. cbn [forallb].
    destruct (is_space a); cbn [andb].
    + rewrite IH. cbn [rmatch rest]. rewrite orelse_None_r.
      destruct (forallb is_space s); [|reflexivity].
      f_equal. f_equal. cbn [List.length]. lia.
    + reflexivity.
Qed.

Lemma trailing_re_at s i :
  rmatch trailing_re (MState i s []) Some =
  match s with
  | [] => None
  | _ :: _ => if forallb is_space s
              then Some (MState (i + List.length s) [] []) else None
  end.
Proof.
  unfold trailing_re, plus. rewrite !rmatch_Seq.
  destruct s as [|a s]; [reflexivity|].
  unfold ws at 1. rewrite rmatch_Cls. cbn [forallb].
  destruct (is_space a); cbn [andb]; [|reflexivity].
  rewrite ws_run_to_end. destruct (forallb is_space s); [|reflexivity].
  f_equal. f_equal. cbn [List.length]. lia.
Qed.

Lemma replace_trailing_from s : forall i,
  match search trailing_re i s with
  | None => s
  | Some m => firstn (m_index m - i) s ++ rest (m_end m)
  end = trimEnd s.
Proof.
  induction s as [|a s IH]; intros i.
  - cbn [search]. rewrite trailing_re_at. reflexivity.
  - cbn [search trimEnd]. rewrite trailing_re_at.
    destruct (forallb is_space (a :: s)).
    + cbn [m_index m_end rest]. rewrite Nat.sub_diag. reflexivity.
    + specialize (IH (S i)).
      destruct (search trailing_re (S i) s) as [m|] eqn:E.
      * apply search_index in E.
        replace (m_index m - i) with (S (m_index m - S i)) by lia.
        cbn [firstn app]. f_equal. exact IH.
      * f_equal. exact IH.
Qed.

(** Replacing [/\s+$/] by the empty string strips the trailing white space. *)
Lemma replace_trailing s : replace_first trailing_re [] s = trimEnd s.
Proof.
  unfold replace_first. rewrite <- (replace_trailing_from s 0).
  destruct (search trailing_re 0 s); [|reflexivity].
  rewrite Nat.sub_0_r. reflexivity.
Qed.

(** *** Annotations *)

Lemma take_drop_while q s : s = take_while q s ++ drop_while q s.
Proof.
  induction s as [|a s IH]; [reflexivity|]. cbn [take_while drop_while].
  destruct (q a); [|reflexivity]. cbn [app]. f_equal. exact IH.
Qed.

Lemma take_while_all q s : forallb q (take_while q s) = true.
Proof.
  induction s as [|a s IH]; [reflexivity|]. cbn [take_while].
  destruct (q a) eqn:E; [|reflexivity]. cbn [forallb]. rewrite E. exact IH.
Qed.

Lemma drop_while_stops q s : stops q (drop_while q s) = true.
Proof.
  induction s as [|a s IH]; [reflexivity|]. cbn [drop_while].
  destruct (q a) eqn:E; [exact IH|]. cbn [stops]. rewrite E. reflexivity.
Qed.

Lemma drop_while_length q s : List.length (drop_while q s) <= List.length s.
Proof.
  induction s as [|a s IH]; [reflexivity|]. cbn [drop_while].
  destruct (q a); cbn [List.length]; lia.
Qed.

Lemma firstn_take_while q s :
  firstn (List.length (take_while q s)) s = take_while q s.
Proof.
  rewrite (take_drop_while q s) at 2.
  replace (List.length (take_while q s)) with (List.length (take_while q s) + 0) by lia.
  rewrite firstn_app_2. cbn [firstn]. apply app_nil_r.
Qed.

(** A greedy run before a continuation that succeeds takes all it can. *)
Lemma greedy_takes_all q s p cs k res :
  k (MState (p + List.length (take_while q s)) (drop_while q s) cs) = Some res ->
  rmatch (Star true (Cls q)) (MState p s cs) k = Some res.
Proof.
  intros H. rewrite (take_drop_while q s) at 1.
  apply greedy_run; [apply take_while_all | apply drop_while_stops | exact H].
Qed.

Lemma annotation_re_at s i :
  rmatch annotation_re (MState i s []) Some =
  match s with
  | a :: s' =>
      if N.eqb a (cu "@") && starts_word s'
      then Some (MState (S i + List.length (take_while is_word s'))
                        (drop_while is_word s')
                        [(1, a :: take_while is_word s')])
      else None
  | [] => None
  end.
Proof.
  unfold annotation_re. rewrite rmatch_Group, rmatch_Seq.
  destruct s as [|a s]; [reflexivity|]. rewrite rmatch_Chr.
  destruct (N.eqb a (cu "@")); cbn [andb]; [|reflexivity].
  unfold plus. rewrite rmatch_Seq.
  destruct s as [|b s]; [reflexivity|]. unfold wd at 1. rewrite rmatch_Cls.
  cbn [starts_word]. destruct (is_word b) eqn:Hb; [|reflexivity].
  unfold wd. erewrite greedy_takes_all; [|reflexivity].
  unfold set_cap. cbn [pos rest caps take_while]. rewrite Hb.
  f_equal. f_equal.
  - cbn [List.length]. lia.
  - cbn [drop_while]. rewrite Hb. reflexivity.
  - f_equal. f_equal.
    replace (S (S i) + List.length (take_while is_word s) - i)
      with (S (S (List.length (take_while is_word s)))) by lia.
    cbn [firstn]. f_equal. f_equal. apply firstn_take_while.
Qed.

Lemma annotate_inside s :
  annotate_from true s =
  take_while is_word s ++ span_close ++ annotate_from false (drop_while is_word s).
Proof.
  induction s as [|a s IH]; [cbn [annotate_from take_while drop_while app]; symmetry; apply app_nil_r|].
  cbn [annotate_from take_while drop_while andb].
  destruct (is_word a); [cbn [app]; f_equal; exact IH|].
  reflexivity.
Qed.

Lemma expand_annotation w :
  expand annotation_tpl [(1, w)] = span_open ++ w ++ span_close.
Proof.
  unfold expand, annotation_tpl. cbn [map List.concat capture Nat.eqb].
  rewrite app_nil_r. reflexivity.
Qed.

Lemma replace_annotations fuel : forall s i,
  List.length s < fuel ->
  replace_all_from fuel annotation_re annotation_tpl i s = annotate s.
Proof.
  induction fuel as [|fuel IHf]; intros s i Hf; [inversion Hf|].
  revert i Hf. induction s as [|a s IHs]; intros i Hf.
  - cbn [replace_all_from search]. rewrite annotation_re_at. reflexivity.
  - cbn [replace_all_from search]. rewrite annotation_re_at.
    unfold annotate. cbn [annotate_from andb app].
    destruct (N.eqb a (cu "@") && starts_word s) eqn:E.
    + cbn [m_index m_end pos rest caps].
      replace (S i + List.length (take_while is_word s) =? i) with false
        by (symmetry; apply Nat.eqb_neq; lia).
      rewrite Nat.sub_diag. cbn [firstn app].
      rewrite expand_annotation, IHf.
      * rewrite annotate_inside. unfold annotate.
        repeat rewrite <- app_assoc. reflexivity.
      * pose proof (drop_while_length is_word s). cbn [List.length] in Hf. lia.
    + assert (Hs : List.length s < S fuel) by (cbn [List.length] in Hf; lia).
      specialize (IHs (S i) Hs). cbn [replace_all_from] in IHs.
      destruct (search annotation_re (S i) s) as [m|] eqn:Em.
      * apply search_index in Em.
        replace (m_index m - i) with (S (m_index m - S i)) by lia.
        cbn [firstn app]. f_equal. exact IHs.
      * f_equal. exact IHs.
Qed.

(** [line.replace(/(@\w+)/g, ...)] wraps every [@word]. *)
Lemma replace_annotation s :
  replace_all annotation_re annotation_tpl s = annotate s.
Proof. apply replace_annotations. lia. Qed.

(** X15. The rendered description is the raw block split into lines, each
    stripped of its trailing white space, without the lines that begin with
    [/**] or with [*/], every [@word] wrapped in the annotation span, joined
    again by line breaks. *)
Theorem description_pipeline d :
  highlightedDescription d = description_rendering keep_line d /\
  forall line,
    keep_line line = false <->
    startsWith (js "/**") line = true \/ startsWith (js "*/") line = true.
Proof.
  split.
  - unfold highlightedDescription, description_rendering. f_equal.
    rewrite (map_ext _ _ replace_trailing).
    apply map_ext. exact replace_annotation.
  - intros line. unfold keep_line.
    destruct (startsWith (js "/**") line), (startsWith (js "*/") line);
      cbn [negb andb]; split; intros H; auto; destruct H; discriminate.
Qed.

(** C8. Only the lines that are exactly [/**] or [*/] are meant to go, which
    leaves the one-line comment [/** doc */] in place; the filter of the code
    drops every line that begins with a delimiter, so the documentation text
    of that comment is lost and the declaration alone is rendered. *)
Theorem description_drops_comment_text :
  highlightedDescription foobar_text =
    js "native FooBar takes integer a returns boolean" /\
  description_rendering keep_unless_delimiter foobar_text =
    js "/** doc */" ++ [nl] ++
    js "native FooBar takes integer a returns boolean".
Proof. split; vm_compute; reflexivity. Qed.

(** ** The session *)

Lemma jsstring_eqb_eq a : forall b, jsstring_eqb a b = true <-> a = b.
Proof.
  induction a as [|x a IH]; intros [|y b]; cbn [jsstring_eqb]; split;
    try discriminate; try reflexivity.
  - intros H. apply andb_true_iff in H as [H1 H2].
    apply N.eqb_eq in H1. apply IH in H2. congruence.
  - intros [= -> ->]. rewrite N.eqb_refl. apply IH. reflexivity.
Qed.

Lemma find_first {A} (f : A -> bool) l : forall e,
  find f l = Some e ->
  exists l1 l2, l = l1 ++ e :: l2 /\ f e = true /\
                forall x, In x l1 -> f x = false.
Proof.
  induction l as [|a l IH]; intros e H; [discriminate|].
  cbn [find] in H. destruct (f a) eqn:Fa.
  - injection H as <-. exists [], l. repeat split; [exact Fa | intros x []].
  - apply IH in H as (l1 & l2 & -> & He & Hl1).
    exists (a :: l1), l2. repeat split; [exact He|].
    intros x [<- | Hx]; [exact Fa | exact (Hl1 x Hx)].
Qed.

(** Of two ways to cut a list at an element, the cut whose front fails the
    test everywhere has its element within the other's front, unless that
    front fails the test too. *)
Lemma find_first_prefix {A} (f : A -> bool) before : forall e after l1 e1 l2,
  before ++ e :: after = l1 ++ e1 :: l2 ->
  (forall y, In y l1 -> f y = false) ->
  forall x, In x before -> In e1 before \/ f x = false.
Proof.
  induction before as [|b before IH]; intros e after l1 e1 l2 E Hl1 x Hx;
    [destruct Hx|].
  destruct l1 as [|c l1]; cbn [app] in E; injection E as <- E.
  - left. left. reflexivity.
  - destruct Hx as [<- | Hx].
    + right. apply Hl1. left. reflexivity.
    + destruct (IH e after l1 e1 l2 E (fun y Hy => Hl1 y (or_intror Hy)) x Hx)
        as [H|H]; [left; right; exact H | right; exact H].
Qed.

Lemma first_rejection_in rs : forall t e,
  first_rejection rs = Some (t, e) -> In (t, Rejected e) rs.
Proof.
  induction rs as [|[t0 [d|e0]] rs IH]; intros t e H; cbn [first_rejection] in H.
  - discriminate.
  - right. exact (IH t e H).
  - destruct (first_rejection rs) as [[t' e']|].
    + destruct (t' <? t0); injection H as <- <-.
      * right. apply IH. reflexivity.
      * left. reflexivity.
    + injection H as <- <-. left. reflexivity.
Qed.

Lemma first_rejection_some rs t e :
  In (t, Rejected e) rs -> first_rejection rs <> None.
Proof.
  induction rs as [|[t0 [d|e0]] rs IH]; intros H; cbn [first_rejection].
  - destruct H.
  - destruct H as [H|H]; [discriminate | exact (IH H)].
  - destruct (first_rejection rs) as [[t' e']|]; [destruct (t' <? t0)|]; discriminate.
Qed.

(** No rejection is earlier than the one [Promise.all] reports. *)
Lemma first_rejection_earliest rs : forall t e,
  first_rejection rs = Some (t, e) ->
  forall t' e', In (t', Rejected e') rs -> t <= t'.
Proof.
  induction rs as [|[t0 [d|e0]] rs IH]; intros t e H t' e' Hin;
    cbn [first_rejection] in H.
  - destruct Hin.
  - destruct Hin as [Hin|Hin]; [discriminate | exact (IH t e H t' e' Hin)].
  - destruct (first_rejection rs) as [[t1 e1]|] eqn:E.
    + destruct (t1 <? t0) eqn:Lt; injection H as <- <-.
      * apply Nat.ltb_lt in Lt. destruct Hin as [[= <- <-]|Hin]; [lia|].
        exact (IH t1 e1 eq_refl t' e' Hin).
      * apply Nat.ltb_ge in Lt. destruct Hin as [[= <- <-]|Hin]; [lia|].
        pose proof (IH t1 e1 eq_refl t' e' Hin). lia.
    + injection H as <- <-. destruct Hin as [[= <- <-]|Hin]; [lia|].
      exfalso. exact (first_rejection_some rs t' e' Hin E).
Qed.

Section SessionFacts.

Variable fuse_search : Fuse -> jsstring -> list ApiEntry.

(** C5. When a fetch is refused the load fails as a whole: the quick pick
    shows the one failure row, whose detail is the text of the rejection that
    came first, no index is built and no entry is kept, whatever the other
    fetches returned. *)
Theorem fetch_failure_placeholder rs :
  (exists t e, In (t, Rejected e) rs) ->
  exists t e,
    In (t, Rejected e) rs /\
    (forall t' e', In (t', Rejected e') rs -> t <= t') /\
    let s := step fuse_search fuzzySearch_start (FetchSettled rs) in
    items s = [failure_row e] /\
    map detail (items s) = [Some (error_string e)] /\
    busy s = false /\
    fuse s = None /\ apiData s = [] /\ listening s = false /\
    writes s = writes fuzzySearch_start ++ [WBusy false; WItems [failure_row e]].
Proof.
  intros (t0 & e0 & Hin).
  destruct (first_rejection rs) as [[t e]|] eqn:E.
  - exists t, e. split; [exact (first_rejection_in rs t e E)|].
    split; [exact (first_rejection_earliest rs t e E)|].
    cbn [step fuzzySearch_start awaiting]. unfold promise_all. rewrite E.
    cbn. repeat split.
  - exfalso. exact (first_rejection_some rs t0 e0 Hin E).
Qed.


(** C7. When the fuzzy search of a query returns no result, the quick pick
    shows the one [no matches] row, and the entries and the index are as they
    were.  The handler consults the fuzzy search for the queries that are not
    blank. *)
Theorem no_match_placeholder s f value :
  fuse s = Some f -> trim value <> [] -> fuse_search f value = [] ->
  let s' := onDidChangeValue fuse_search s value in
  items s' = [no_matches_row] /\
  apiData s' = apiData s /\ fuse s' = fuse s /\
  writes s' = writes s ++ [WItems [no_matches_row]].
Proof.
  intros Hf Hv Hr. unfold onDidChangeValue.
  destruct (trim value); [congruence|]. rewrite Hf, Hr. cbn. repeat split. exact Hf.
Qed.

(** C9, as the code has it.  Dismissing the quick pick before the fetch
    settles hides it and disposes nothing, no handler being registered yet;
    when the fetch settles the session writes [busy] and [items] all the same,
    exactly as it does without the dismissal. *)
Theorem dismissed_load_still_writes rs :
  let s1 := step fuse_search fuzzySearch_start Dismiss in
  let s2 := step fuse_search s1 (FetchSettled rs) in
  visible s1 = false /\ disposed s1 = false /\
  writes s1 = writes fuzzySearch_start /\
  writes s2 = writes (step fuse_search fuzzySearch_start (FetchSettled rs)) /\
  items s2 = items (step fuse_search fuzzySearch_start (FetchSettled rs)) /\
  exists rows, writes s2 = writes s1 ++ [WBusy false; WItems rows] /\ items s2 = rows.
Proof.
  cbn [step fuzzySearch_start visible hidden listening awaiting].
  unfold fuzzySearch_resume.
  destruct (promise_all rs) as [err|texts].
  - cbn. repeat split. eexists. split; reflexivity.
  - destruct (parseApiDocumentation texts) as [|e l]; cbn; repeat split;
      eexists; split; reflexivity.
Qed.

Lemma hide_keeps_details s :
  details (hide s) = details s /\ panels (hide s) = panels s.
Proof.
  unfold hide, hidden. destruct (visible s); [|split; reflexivity].
  cbn [listening]. destruct (listening s); split; reflexivity.
Qed.

(** C10. On a selection the entry handed to the renderer is the first entry,
    in extraction order of the whole entry set, whose name is the label of
    the selected row: no entry before it has that name, whatever row of that
    label was selected and whatever entry that row was made from. *)
Theorem selection_renders_first_by_name s picked others :
  let by_label := fun r => jsstring_eqb (name r) (label picked) in
  let s' := onDidChangeSelection s (picked :: others) in
  let chosen := match find by_label (apiData s) with
                | Some e => [e]
                | None => []
                end in
  details s' = details s ++ chosen /\
  panels s' = panels s ++ map showFunctionDetails chosen /\
  (forall e, find by_label (apiData s) = Some e ->
     exists before after,
       apiData s = before ++ e :: after /\ name e = label picked /\
       forall x, In x before -> name x <> label picked) /\
  (forall before e after,
     apiData s = before ++ e :: after -> name e = label picked ->
     (exists x, In x before /\ name x = label picked) ->
     exists first, chosen = [first] /\ In first before) /\
  (forall other rest',
     label other = label picked ->
     onDidChangeSelection s (other :: rest') = s').
Proof.
  cbn zeta. unfold onDidChangeSelection.
  split; [|split; [|split; [|split]]].
  - rewrite (proj1 (hide_keeps_details _)).
    destruct (find _ (apiData s)) as [e|]; [reflexivity|].
    symmetry. apply app_nil_r.
  - rewrite (proj2 (hide_keeps_details _)).
    destruct (find _ (apiData s)) as [e|]; [reflexivity|].
    symmetry. apply app_nil_r.
  - intros e H. apply find_first in H as (l1 & l2 & E & He & Hl1).
    exists l1, l2. repeat split; [exact E | apply jsstring_eqb_eq; exact He |].
    intros x Hx Hn. apply Hl1 in Hx. apply jsstring_eqb_eq in Hn. congruence.
  - intros before e after E He (x & Hx & Hn).
    destruct (find _ (apiData s)) as [e1|] eqn:F.
    + exists e1. split; [reflexivity|].
      apply find_first in F as (l1 & l2 & E1 & He1 & Hl1).
      rewrite E in E1.
      destruct (find_first_prefix _ _ _ _ _ _ _ E1 Hl1 x Hx) as [Hin|Hin];
        [exact Hin|].
      exfalso. apply jsstring_eqb_eq in Hn. congruence.
    + exfalso. rewrite E in F.
      assert (Hf := find_none _ _ F x (in_or_app _ _ _ (or_introl Hx))).
      apply jsstring_eqb_eq in Hn. cbv beta in Hf. congruence.
  - intros other rest' ->. reflexivity.
Qed.

End SessionFacts.

(** One fetch of three is refused. *)
Lemma fetch_failure_placeholder_witness :
  exists t e,
    In (t, Rejected e) one_refused /\
    items (step substring_search fuzzySearch_start (FetchSettled one_refused))
    = [failure_row e].
Proof.
  assert (H : exists t e, In (t, Rejected e) one_refused).
  { exists 1, boom. right. left. reflexivity. }
  destruct (fetch_failure_placeholder substring_search one_refused H)
    as (t & e & H0 & _ & H1 & _).
  exists t, e. split; [exact H0 | exact H1].
Defined.


(** The query [zz] in the loaded session, under the stand-in ranking. *)
Lemma no_match_placeholder_witness :
  items (onDidChangeValue substring_search loaded (js "zz")) = [no_matches_row].
Proof.
  refine (proj1 (no_match_placeholder substring_search loaded
                   (mkFuse (apiData loaded) fuse_options) (js "zz") _ _ _)).
  - vm_compute. reflexivity.
  - vm_compute. discriminate.
  - vm_compute. reflexivity.
Defined.

(** C9, as stated, fails: a session dismissed while loading is written to
    when the fetch settles. *)
Lemma dismissal_does_not_stop_writes :
  writes (run substring_search fuzzySearch_start
              [Dismiss; FetchSettled all_fetched]) <>
  writes (run substring_search fuzzySearch_start [Dismiss]).
Proof. vm_compute. discriminate. Qed.

(** ** The matcher consumes texts of its expression *)

Lemma consumed_nil st : consumed st st [].
Proof. split; [reflexivity | cbn; lia]. Qed.

Lemma consumed_app st1 st2 st3 u v :
  consumed st1 st2 u -> consumed st2 st3 v -> consumed st1 st3 (u ++ v).
Proof.
  intros [H1 H2] [H3 H4]. split.
  - rewrite H1, H3. apply app_assoc.
  - rewrite H4, H2, length_app. lia.
Qed.

Lemma consumed_adv st a t : rest st = a :: t -> consumed st (adv st) [a].
Proof.
  intros H. split; [unfold adv; cbn [rest]; rewrite H; reflexivity | cbn; lia].
Qed.

Section LoopSound.
Variable r : regex.
Variable step : mstate -> (mstate -> option mstate) -> option mstate.
Hypothesis step_sound : forall st k res,
  step st k = Some res ->
  exists w st', consumed st st' w /\ lang r w /\ k st' = Some res.

Lemma star_loop_sound g k n : forall st res,
  star_loop step g k n st = Some res ->
  exists w st', consumed st st' w /\ lang (Star g r) w /\ k st' = Some res.
Proof.
  induction n as [|n IH]; intros st res H; cbn [star_loop] in H.
  - exists [], st. split; [apply consumed_nil|]. split; [constructor | exact H].
  - assert (Hagain : forall res,
              step st (fun st1 => if pos st1 =? pos st then None
                                  else star_loop step g k n st1) = Some res ->
              exists w st', consumed st st' w /\ lang (Star g r) w /\
                            k st' = Some res).
    { intros res0 H0. apply step_sound in H0 as (u & st1 & C1 & L1 & H1).
      destruct (pos st1 =? pos st); [discriminate|].
      apply IH in H1 as (v & st2 & C2 & L2 & H2).
      exists (u ++ v), st2. split; [exact (consumed_app _ _ _ _ _ C1 C2)|].
      split; [constructor; assumption | exact H2]. }
    destruct g; apply orelse_Some in H as [H | [_ H]]; auto;
      exists [], st; (split; [apply consumed_nil|]);
      (split; [constructor | exact H]).
Qed.
End LoopSound.

(** What the matcher consumes before it calls its continuation is a text of
    the expression. *)
Lemma rmatch_sound r : forall st k res,
  rmatch r st k = Some res ->
  exists w st', consumed st st' w /\ lang r w /\ k st' = Some res.
Proof.
  induction r as [|c|q|r1 IH1 r2 IH2|r1 IH1 r2 IH2|g r1 IH1|i r1 IH1|];
    intros st k res H; cbn [rmatch] in H.
  - exists [], st. split; [apply consumed_nil|]. split; [constructor | exact H].
  - destruct (rest st) as [|a t] eqn:E; [discriminate|].
    destruct (N.eqb a c) eqn:Ec; [|discriminate]. apply N.eqb_eq in Ec. subst a.
    exists [c], (adv st). split; [exact (consumed_adv _ _ _ E)|].
    split; [constructor | exact H].
  - destruct (rest st) as [|a t] eqn:E; [discriminate|].
    destruct (q a) eqn:Eq; [|discriminate].
    exists [a], (adv st). split; [exact (consumed_adv _ _ _ E)|].
    split; [constructor; exact Eq | exact H].
  - apply IH1 in H as (u & st1 & C1 & L1 & H). apply IH2 in H as (v & st2 & C2 & L2 & H).
    exists (u ++ v), st2. split; [exact (consumed_app _ _ _ _ _ C1 C2)|].
    split; [constructor; assumption | exact H].
  - apply orelse_Some in H as [H | [_ H]].
    + apply IH1 in H as (u & st1 & C & L & H). exists u, st1.
      split; [exact C|]. split; [apply lang_Alt_l; exact L | exact H].
    + apply IH2 in H as (u & st1 & C & L & H). exists u, st1.
      split; [exact C|]. split; [apply lang_Alt_r; exact L | exact H].
  - exact (star_loop_sound r1 _ IH1 g k _ st res H).
  - apply IH1 in H as (u & st1 & C & L & H).
    exists u, (set_cap i st st1). split; [exact C|].
    split; [constructor; exact L | exact H].
  - destruct (rest st) eqn:E; [|discriminate].
    exists [], st. split; [apply consumed_nil|]. split; [constructor | exact H].
Qed.

Lemma firstn_consumed st st' w :
  consumed st st' w -> firstn (pos st' - pos st) (rest st) = w.
Proof.
  intros [H1 H2]. rewrite H1, H2.
  replace (pos st + List.length w - pos st) with (List.length w + 0) by lia.
  rewrite firstn_app_2. cbn [firstn]. apply app_nil_r.
Qed.

(** The text of a match is a text of the expression, and a piece of the
    input. *)
Lemma search_sound r : forall s i m,
  search r i s = Some m ->
  lang r (matched m) /\
  exists before, s = before ++ matched m ++ rest (m_end m) /\
                 m_index m = i + List.length before.
Proof.
  induction s as [|a s IH]; intros i m; cbn [search];
    destruct (rmatch r _ Some) as [e|] eqn:E; try discriminate.
  - intros [= <-]. apply rmatch_sound in E as (w & st' & C & L & [= ->]).
    unfold matched. cbn [m_end m_index m_input].
    pose proof (firstn_consumed _ _ _ C) as F. cbn [pos rest] in F. rewrite F.
    split; [exact L|].
    exists []. split; [exact (proj1 C) | cbn; lia].
  - intros [= <-]. apply rmatch_sound in E as (w & st' & C & L & [= ->]).
    unfold matched. cbn [m_end m_index m_input].
    pose proof (firstn_consumed _ _ _ C) as F. cbn [pos rest] in F. rewrite F.
    split; [exact L|].
    exists []. split; [exact (proj1 C) | cbn; lia].
  - intros H. apply IH in H as (L & before & E1 & E2). split; [exact L|].
    exists (a :: before). split; [cbn [app]; f_equal; exact E1 | cbn [List.length]; lia].
Qed.

Lemma match_all_from_sound r : forall fuel i s b,
  In b (match_all_from fuel r i s) ->
  lang r b /\ exists before after, s = before ++ b ++ after.
Proof.
  induction fuel as [|fuel IH]; intros i s b H; [destruct H|].
  cbn [match_all_from] in H.
  destruct (search r i s) as [m|] eqn:E; [|destruct H].
  apply search_sound in E as (L & before & E1 & E2).
  destruct H as [<- | H].
  - split; [exact L|]. exists before, (rest (m_end m)). exact E1.
  - assert (Hrest : In b (match_all_from fuel r (pos (m_end m)) (rest (m_end m))) \/
                    exists c s', rest (m_end m) = c :: s' /\
                      In b (match_all_from fuel r (S (pos (m_end m))) s')).
    { destruct (pos (m_end m) =? m_index m); [|left; exact H].
      destruct (rest (m_end m)) as [|c s']; [destruct H|].
      right. exists c, s'. split; [reflexivity | exact H]. }
    destruct Hrest as [H1 | (c & s' & Er & H1)].
    + apply IH in H1 as (Lb & b1 & b2 & Eb). split; [exact Lb|].
      exists (before ++ matched m ++ b1), b2.
      rewrite E1, Eb. repeat rewrite <- app_assoc. reflexivity.
    + apply IH in H1 as (Lb & b1 & b2 & Eb). split; [exact Lb|].
      exists (before ++ matched m ++ c :: b1), b2.
      rewrite E1, Er, Eb. repeat rewrite <- app_assoc. reflexivity.
Qed.

(** ** What every extracted entry satisfies *)

Lemma lang_lit s : forall w, lang (lit s) w -> w = s.
Proof.
  induction s as [|c s IH]; intros w H; cbn [lit] in H.
  - inversion H. reflexivity.
  - inversion H as [| | |r1 r2 u v Hu Hv| | | | | |]; subst.
    inversion Hu; subst. cbn [app]. f_equal. exact (IH v Hv).
Qed.

Lemma lang_star_cls g q w : lang (Star g (Cls q)) w -> forallb q w = true.
Proof.
  remember (Star g (Cls q)) as r eqn:Er. intros H.
  induction H as [| | | | | | |g' r' u v Hu _ Hv IH| |]; try discriminate;
    [reflexivity|].
  injection Er as -> ->. inversion Hu as [| |p a Ha| | | | | | |]; subst.
  cbn [app forallb]. rewrite Ha. exact (IH eq_refl).
Qed.

Lemma lang_plus_cls q w :
  lang (plus (Cls q)) w -> w <> [] /\ forallb q w = true.
Proof.
  unfold plus. intros H.
  inversion H as [| | |r1 r2 u v Hu Hv| | | | | |]; subst.
  inversion Hu as [| |p a Ha| | | | | | |]; subst.
  apply lang_star_cls in Hv. cbn [app forallb]. rewrite Ha, Hv.
  split; [discriminate | reflexivity].
Qed.

Lemma lang_identifier w : lang (plus wd) w -> is_identifier w = true.
Proof.
  intros H. apply lang_plus_cls in H as [Hne Hw].
  destruct w; [congruence | exact Hw].
Qed.

Lemma search_rmatch r : forall s i m,
  search r i s = Some m ->
  rmatch r (MState (m_index m) (m_input m) []) Some = Some (m_end m).
Proof.
  induction s as [|a s IH]; intros i m; cbn [search];
    destruct (rmatch r _ Some) as [e|] eqn:E; try discriminate.
  - intros [= <-]. exact E.
  - intros [= <-]. exact E.
  - apply IH.
Qed.

Lemma search_exists r u : forall v i,
  (exists e, rmatch r (MState (i + List.length u) v []) Some = Some e) ->
  exists m, search r i (u ++ v) = Some m.
Proof.
  induction u as [|a u IH]; intros v i [e H].
  - cbn [app List.length] in *. rewrite Nat.add_0_r in H.
    exists (MatchResult i v e). apply search_here. exact H.
  - cbn [app search].
    destruct (rmatch r (MState i (a :: u ++ v) []) Some) as [e'|];
      [eexists; reflexivity|].
    apply IH. exists e. rewrite <- H. f_equal. f_equal. cbn [List.length]. lia.
Qed.

Lemma group_word_matches i p n0 s cs :
  is_word n0 = true ->
  exists e, rmatch (Group i (plus wd)) (MState p (n0 :: s) cs) Some = Some e.
Proof.
  intros Hn0. rewrite rmatch_Group. unfold plus. rewrite rmatch_Seq.
  unfold wd at 1. rewrite rmatch_Cls, Hn0.
  eexists. unfold wd. apply greedy_takes_all. reflexivity.
Qed.

(** The keyword, white space and an identifier: the expression matches
    there, whatever follows. *)
Lemma keyword_re_matches kw w1 N t i :
  w1 <> [] -> forallb is_space w1 = true -> is_identifier N = true ->
  exists e, rmatch (keyword_re kw) (MState i (kw ++ w1 ++ N ++ t) []) Some = Some e.
Proof.
  intros Hne Hw HN. destruct (is_identifier_inv _ HN) as [HNne HNw].
  unfold keyword_re. rewrite rmatch_Seq, rmatch_lit, rmatch_Seq.
  destruct w1 as [|a w1]; [congruence|].
  cbn [forallb] in Hw. apply andb_true_iff in Hw as [Ha Hw].
  unfold plus at 1. rewrite rmatch_Seq. cbn [app]. unfold ws at 1.
  rewrite rmatch_Cls, Ha.
  destruct N as [|n0 N]; [congruence|].
  cbn [forallb] in HNw. apply andb_true_iff in HNw as [Hn0 HNw].
  destruct (group_word_matches 1
              (S (i + List.length kw) + List.length w1) n0 (N ++ t) [] Hn0)
    as [e He].
  exists e. apply (greedy_run is_space w1); [exact Hw | | exact He].
  cbn [app stops]. rewrite (word_not_space _ Hn0). reflexivity.
Qed.

(** Whatever the expression matched, its group holds an identifier. *)
Lemma keyword_re_capture kw st e :
  rmatch (keyword_re kw) st Some = Some e ->
  exists N, capture 1 (caps e) = Some N /\ is_identifier N = true.
Proof.
  unfold keyword_re. rewrite rmatch_Seq. intros H.
  apply rmatch_sound in H as (u1 & s1 & _ & _ & H). rewrite rmatch_Seq in H.
  apply rmatch_sound in H as (u2 & s2 & _ & _ & H). rewrite rmatch_Group in H.
  apply rmatch_sound in H as (u3 & s3 & C & L & H).
  injection H as <-. exists u3. split; [|exact (lang_identifier _ L)].
  unfold set_cap. cbn [caps capture Nat.eqb]. f_equal.
  exact (firstn_consumed _ _ _ C).
Qed.

Lemma keyword_group kw u w1 N t :
  w1 <> [] -> forallb is_space w1 = true -> is_identifier N = true ->
  exists N', match_group (keyword_re kw) 1 (u ++ kw ++ w1 ++ N ++ t) = Some N' /\
             is_identifier N' = true.
Proof.
  intros Hne Hw HN. unfold match_group.
  destruct (search_exists (keyword_re kw) u (kw ++ w1 ++ N ++ t) 0
              (keyword_re_matches kw w1 N t _ Hne Hw HN)) as [m E].
  rewrite E. apply search_rmatch in E.
  exact (keyword_re_capture kw _ _ E).
Qed.

Lemma or_default_identifier x d N :
  x = Some N -> is_identifier N = true -> or_default x d = N.
Proof. intros -> H. destruct N; [discriminate | reflexivity]. Qed.

Lemma lang_Seq_inv r1 r2 w :
  lang (Seq r1 r2) w -> exists u v, w = u ++ v /\ lang r1 u /\ lang r2 v.
Proof. intros H. inversion H; subst. eexists _, _. repeat split; assumption. Qed.

Lemma lang_Group_inv i r w : lang (Group i r) w -> lang r w.
Proof. intros H. inversion H; subst. assumption. Qed.

(** The pieces of a text of the block pattern. *)
Lemma lang_block_re b :
  lang block_re b ->
  startsWith (js "/**") b = true /\
  (exists u w1 N t, b = u ++ js "native" ++ w1 ++ N ++ t /\ w1 <> [] /\
                    forallb is_space w1 = true /\ is_identifier N = true) /\
  (exists u w1 T, b = u ++ js "returns" ++ w1 ++ T ++ [] /\ w1 <> [] /\
                  forallb is_space w1 = true /\ is_identifier T = true).
Proof.
  unfold block_re. intros H.
  apply lang_Seq_inv in H as (x1 & y1 & -> & H1 & H). apply lang_lit in H1 as ->.
  apply lang_Seq_inv in H as (c & y2 & -> & _ & H).
  apply lang_Seq_inv in H as (x3 & y3 & -> & H3 & H). apply lang_lit in H3 as ->.
  apply lang_Seq_inv in H as (x4 & y4 & -> & _ & H).
  apply lang_Seq_inv in H as (x5 & y5 & -> & _ & H).
  apply lang_Seq_inv in H as (x6 & y6 & -> & H6 & H). apply lang_lit in H6 as ->.
  apply lang_Seq_inv in H as (w1 & y7 & -> & H7 & H). apply lang_plus_cls in H7 as [H7 H7'].
  apply lang_Seq_inv in H as (N & y8 & -> & H8 & H).
  apply lang_Group_inv, lang_identifier in H8.
  apply lang_Seq_inv in H as (x9 & y9 & -> & _ & H).
  apply lang_Seq_inv in H as (x10 & y10 & -> & _ & H).
  apply lang_Seq_inv in H as (x11 & y11 & -> & _ & H).
  apply lang_Seq_inv in H as (x12 & y12 & -> & _ & H).
  apply lang_Seq_inv in H as (x13 & y13 & -> & _ & H).
  apply lang_Seq_inv in H as (x14 & y14 & -> & H14 & H). apply lang_lit in H14 as ->.
  apply lang_Seq_inv in H as (w5 & T & -> & H15 & H). apply lang_plus_cls in H15 as [H15 H15'].
  apply lang_Group_inv, lang_identifier in H.
  split; [reflexivity|]. split.
  - exists (js "/**" ++ c ++ js "*/" ++ x4 ++ x5), w1, N,
      (x9 ++ x10 ++ x11 ++ x12 ++ x13 ++ js "returns" ++ w5 ++ T).
    split; [repeat rewrite <- app_assoc; reflexivity|]. repeat split; assumption.
  - exists (js "/**" ++ c ++ js "*/" ++ x4 ++ x5 ++ js "native" ++ w1 ++ N ++
            x9 ++ x10 ++ x11 ++ x12 ++ x13), w5, T.
    split; [|repeat split; assumption].
    rewrite app_nil_r. repeat rewrite <- app_assoc. reflexivity.
Qed.

Lemma trimStart_head s :
  match trimStart s with
  | [] => True
  | a :: _ => is_space a = false
  end.
Proof.
  induction s as [|a s IH]; [exact I|]. cbn [trimStart].
  destruct (is_space a) eqn:E; [exact IH | exact E].
Qed.

Lemma trimEnd_all_space s :
  forallb is_space (trimEnd s) = true -> forallb is_space s = true.
Proof.
  induction s as [|a s IH]; [reflexivity|]. cbn [trimEnd].
  destruct (forallb is_space (a :: s)) eqn:E; [reflexivity|].
  cbn [forallb] in *. intros H. apply andb_true_iff in H as [Ha H].
  rewrite Ha, (IH H) in E. discriminate.
Qed.

Lemma trimEnd_idempotent s : trimEnd (trimEnd s) = trimEnd s.
Proof.
  induction s as [|a s IH]; [reflexivity|]. cbn [trimEnd].
  destruct (forallb is_space (a :: s)) eqn:E; [reflexivity|].
  cbn [trimEnd].
  destruct (forallb is_space (a :: trimEnd s)) eqn:E'.
  - exfalso. cbn [forallb] in *. apply andb_true_iff in E' as [Ha H].
    rewrite Ha, (trimEnd_all_space s H) in E. discriminate.
  - f_equal. exact IH.
Qed.

Lemma trimEnd_head a s :
  is_space a = false -> trimEnd (a :: s) = a :: trimEnd s.
Proof. intros H. cbn [trimEnd forallb]. rewrite H. reflexivity. Qed.

(** [trim] leaves nothing to trim. *)
Lemma trim_idempotent s : trim (trim s) = trim s.
Proof.
  unfold trim. pose proof (trimStart_head s) as H.
  destruct (trimStart s) as [|a t]; [reflexivity|].
  rewrite (trimEnd_head a t H). cbn [trimStart]. rewrite H.
  rewrite <- (trimEnd_head a t H). apply trimEnd_idempotent.
Qed.

Lemma entry_parameters_trimmed b :
  entry_parameters b <> [] /\ trim (entry_parameters b) = entry_parameters b.
Proof.
  unfold entry_parameters.
  destruct (match_group takes_re 1 b) as [g|]; cbn [option_map or_default].
  - destruct (trim g) as [|a t] eqn:E.
    + split; [discriminate | reflexivity].
    + split; [discriminate|]. rewrite <- E. apply trim_idempotent.
  - split; [discriminate | reflexivity].
Qed.

(** What holds of the entry of any text of the block pattern. *)
Lemma entry_of_lang b :
  lang block_re b ->
  is_identifier (entry_name b) = true /\
  is_identifier (entry_returnType b) = true /\
  startsWith (js "/**") b = true.
Proof.
  intros H. apply lang_block_re in H as (Hs & (u & w1 & N & t & E1 & Hw1 & Hw1' & HN)
                                          & (u' & w5 & T & E2 & Hw5 & Hw5' & HT)).
  split; [|split; [|exact Hs]].
  - unfold entry_name. change native_re with (keyword_re (js "native")).
    rewrite E1.
    destruct (keyword_group (js "native") u w1 N t Hw1 Hw1' HN) as (N' & E & HN').
    rewrite (or_default_identifier _ _ _ E HN'). exact HN'.
  - unfold entry_returnType. change returns_re with (keyword_re (js "returns")).
    rewrite E2.
    destruct (keyword_group (js "returns") u' w5 T [] Hw5 Hw5' HT) as (T' & E & HT').
    rewrite (or_default_identifier _ _ _ E HT'). exact HT'.
Qed.

Lemma extracted_entry_shape texts e :
  In e (parseApiDocumentation texts) ->
  is_identifier (name e) = true /\
  (exists P T,
     signature e = name e ++ js "(" ++ P ++ js "): " ++ T /\
     P <> [] /\ trim P = P /\ is_identifier T = true) /\
  startsWith (js "/**") (description e) = true /\
  exists before after, join [nl] texts = before ++ description e ++ after.
Proof.
  unfold parseApiDocumentation, match_all. intros H.
  apply in_map_iff in H as (b & <- & H).
  apply match_all_from_sound in H as (L & before & after & E).
  destruct (entry_of_lang b L) as (Hn & Ht & Hs).
  destruct (entry_parameters_trimmed b) as (Hp & Hp').
  unfold entry_of. cbn [name signature description].
  split; [exact Hn|]. split.
  - exists (entry_parameters b), (entry_returnType b). repeat split; assumption.
  - split; [exact Hs|]. exists before, after. exact E.
Qed.

(** X4. Every extracted entry has an identifier for its name and for its return
    type, parameters that are not empty and carry no white space at either
    end, a signature of the three parts, and for its description a piece of
    the combined text that opens a comment. *)
Theorem entries_well_shaped texts e :
  In e (parseApiDocumentation texts) ->
  is_identifier (name e) = true /\
  (exists P T,
     signature e = name e ++ js "(" ++ P ++ js "): " ++ T /\
     P <> [] /\ trim P = P /\ is_identifier T = true) /\
  startsWith (js "/**") (description e) = true /\
  exists before after, join [nl] texts = before ++ description e ++ after.
Proof. exact (extracted_entry_shape texts e). Qed.

(** ** Texts without a block, runs of blocks *)

Lemma startsWith_app p t : startsWith p (p ++ t) = true.
Proof.
  induction p as [|a p IH]; [reflexivity|].
  cbn [app startsWith]. rewrite N.eqb_refl. exact IH.
Qed.

Lemma includes_piece p u : forall t, includes p (u ++ p ++ t) = true.
Proof.
  induction u as [|a u IH]; intros t.
  - cbn [app]. destruct (p ++ t) eqn:E; cbn [includes]; rewrite <- E;
      rewrite startsWith_app; reflexivity.
  - cbn [app includes]. rewrite IH. apply orb_true_r.
Qed.

Lemma lang_block_re_keywords b :
  lang block_re b ->
  forall kw, In kw block_keywords -> exists u t, b = u ++ kw ++ t.
Proof.
  unfold block_re. intros H.
  apply lang_Seq_inv in H as (x1 & y1 & -> & H1 & H). apply lang_lit in H1 as ->.
  apply lang_Seq_inv in H as (c & y2 & -> & _ & H).
  apply lang_Seq_inv in H as (x3 & y3 & -> & H3 & H). apply lang_lit in H3 as ->.
  apply lang_Seq_inv in H as (x4 & y4 & -> & _ & H).
  apply lang_Seq_inv in H as (x5 & y5 & -> & _ & H).
  apply lang_Seq_inv in H as (x6 & y6 & -> & H6 & H). apply lang_lit in H6 as ->.
  apply lang_Seq_inv in H as (x7 & y7 & -> & _ & H).
  apply lang_Seq_inv in H as (x8 & y8 & -> & _ & H).
  apply lang_Seq_inv in H as (x9 & y9 & -> & _ & H).
  apply lang_Seq_inv in H as (x10 & y10 & -> & H10 & H). apply lang_lit in H10 as ->.
  apply lang_Seq_inv in H as (x11 & y11 & -> & _ & H).
  apply lang_Seq_inv in H as (x12 & y12 & -> & _ & H).
  apply lang_Seq_inv in H as (x13 & y13 & -> & _ & H).
  apply lang_Seq_inv in H as (x14 & y14 & -> & H14 & H). apply lang_lit in H14 as ->.
  intros kw Hk. unfold block_keywords in Hk. cbn [In] in Hk.
  destruct Hk as [<- | [<- | [<- | [<- | [<- | []]]]]].
  - exists [], (c ++ js "*/" ++ x4 ++ x5 ++ js "native" ++ x7 ++ x8 ++ x9 ++
                js "takes" ++ x11 ++ x12 ++ x13 ++ js "returns" ++ y14).
    reflexivity.
  - exists (js "/**" ++ c), (x4 ++ x5 ++ js "native" ++ x7 ++ x8 ++ x9 ++
                js "takes" ++ x11 ++ x12 ++ x13 ++ js "returns" ++ y14).
    repeat rewrite <- app_assoc. reflexivity.
  - exists (js "/**" ++ c ++ js "*/" ++ x4 ++ x5),
           (x7 ++ x8 ++ x9 ++ js "takes" ++ x11 ++ x12 ++ x13 ++ js "returns" ++ y14).
    repeat rewrite <- app_assoc. reflexivity.
  - exists (js "/**" ++ c ++ js "*/" ++ x4 ++ x5 ++ js "native" ++ x7 ++ x8 ++ x9),
           (x11 ++ x12 ++ x13 ++ js "returns" ++ y14).
    repeat rewrite <- app_assoc. reflexivity.
  - exists (js "/**" ++ c ++ js "*/" ++ x4 ++ x5 ++ js "native" ++ x7 ++ x8 ++ x9
            ++ js "takes" ++ x11 ++ x12 ++ x13), y14.
    repeat rewrite <- app_assoc. reflexivity.
Qed.

(** X1. A combined text that lacks one of the delimiters or keywords of the
    block pattern gives no entry; so does no text at all. *)
Theorem missing_keyword_no_entries texts kw :
  In kw block_keywords ->
  includes kw (join [nl] texts) = false ->
  parseApiDocumentation texts = [].
Proof.
  intros Hk Hi. unfold parseApiDocumentation, match_all.
  destruct (match_all_from _ block_re 0 (join [nl] texts)) as [|b bs] eqn:E;
    [reflexivity|].
  exfalso.
  assert (Hb : In b (match_all_from (S (List.length (join [nl] texts))) block_re 0
                       (join [nl] texts))) by (rewrite E; left; reflexivity).
  apply match_all_from_sound in Hb as (L & before & after & Et).
  destruct (lang_block_re_keywords b L kw Hk) as (u & t & ->).
  rewrite Et in Hi.
  replace (before ++ (u ++ kw ++ t) ++ after)
    with ((before ++ u) ++ kw ++ (t ++ after)) in Hi
    by (repeat rewrite <- app_assoc; reflexivity).
  rewrite includes_piece in Hi. discriminate.
Qed.

(** X2. Any number of well-formed blocks, one after the other or one a file,
    give one entry each, in their order. *)
Theorem run_of_blocks sep bs :
  forallb is_space sep = true -> Forall well_formed_block bs ->
  parseApiDocumentation [join sep bs] = map entry_of bs /\
  parseApiDocumentation bs = map entry_of bs /\
  map description (parseApiDocumentation [join sep bs]) = bs.
Proof.
  intros Hs Hb. split; [exact (parse_blocks sep bs Hs Hb)|]. split.
  - exact (parse_blocks [nl] bs eq_refl Hb).
  - rewrite (parse_blocks sep bs Hs Hb), map_map. cbn [description entry_of].
    apply map_id.
Qed.

Lemma drop_while_space_word s : forall d t,
  forallb is_space s = true -> is_word d = true ->
  drop_while is_space (s ++ d :: t) = d :: t.
Proof.
  induction s as [|a s IH]; intros d t Hs Hd.
  - cbn [app drop_while]. rewrite (word_not_space _ Hd). reflexivity.
  - cbn [forallb] in Hs. apply andb_true_iff in Hs as [Ha Hs].
    cbn [app drop_while]. rewrite Ha. apply IH; assumption.
Qed.

(** Where the expression matches, the text has the keyword, white space and a
    word character. *)
Lemma native_re_needs_word s i k :
  native_word_at s = false -> rmatch native_re (MState i s []) k = None.
Proof.
  intros H. destruct (rmatch native_re (MState i s []) k) as [e|] eqn:E;
    [exfalso | reflexivity].
  apply rmatch_sound in E as (w & st' & [C _] & L & _). cbn [rest] in C.
  unfold native_re in L.
  apply lang_Seq_inv in L as (u & v & -> & Lu & Lv).
  apply lang_lit in Lu. subst u.
  apply lang_Seq_inv in Lv as (s1 & d & -> & Ls & Ld).
  apply lang_plus_cls in Ls as [Hs1 Hs].
  apply lang_Group_inv in Ld. apply lang_plus_cls in Ld as [Hd1 Hd].
  destruct s1 as [|b s1]; [congruence|]. destruct d as [|d0 d]; [congruence|].
  cbn [forallb] in Hs, Hd.
  apply andb_true_iff in Hs as [Hb Hs]. apply andb_true_iff in Hd as [Hd0 Hd].
  subst s. revert H. unfold native_word_at.
  repeat rewrite <- app_assoc.
  change (skipn 6 (js "native" ++ (b :: s1) ++ (d0 :: d) ++ rest st'))
    with (b :: s1 ++ d0 :: d ++ rest st').
  cbv beta iota. rewrite Hb, (drop_while_space_word s1 d0 _ Hs Hd0).
  cbn [starts_word]. rewrite Hd0. discriminate.
Qed.

Lemma starts_word_before t : forall z,
  starts_word (drop_while is_space t) = false ->
  starts_word (drop_while is_space (t ++ cu "*" :: z)) = false.
Proof.
  induction t as [|a t IH]; intros z H.
  - reflexivity.
  - cbn [app drop_while] in *. destruct (is_space a); [apply IH; exact H | exact H].
Qed.

(** The closing delimiter after the comment gives the keyword no word. *)
Lemma native_word_at_before c z :
  native_word_at c = false -> native_word_at (c ++ cu "*" :: z) = false.
Proof.
  intros H. unfold native_word_at.
  destruct (startsWith (js "native") (c ++ cu "*" :: z)) eqn:S; [|reflexivity].
  apply (startsWith_before (js "native") c (cu "*") z eq_refl) in S.
  unfold native_word_at in H. rewrite S in H. cbn [andb] in H |- *.
  apply startsWith_split in S.
  change (List.length (js "native")) with 6 in S.
  destruct (skipn 6 c) as [|b t] eqn:K.
  - rewrite S. rewrite <- app_assoc.
    change (skipn 6 (js "native" ++ [] ++ cu "*" :: z)) with (cu "*" :: z).
    reflexivity.
  - rewrite S. rewrite <- app_assoc.
    change (skipn 6 (js "native" ++ (b :: t) ++ cu "*" :: z))
      with (b :: t ++ cu "*" :: z).
    cbv beta iota. destruct (is_space b); [|reflexivity]. cbn [andb] in H |- *.
    apply starts_word_before. exact H.
Qed.

(** The search passes over a comment that gives the keyword no word. *)
Lemma search_over_comment c : forall i z,
  names_after_native c = false ->
  search native_re i (c ++ cu "*" :: z) =
  search native_re (i + List.length c) (cu "*" :: z).
Proof.
  induction c as [|a c IH]; intros i z H.
  - cbn [app List.length]. rewrite Nat.add_0_r. reflexivity.
  - cbn [names_after_native] in H. apply orb_false_iff in H as [H1 H2].
    cbn [app]. rewrite search_skip.
    + rewrite (IH (S i) z H2). f_equal. cbn [List.length]. lia.
    + apply native_re_needs_word.
      exact (native_word_at_before (a :: c) z H1).
Qed.

(** Where no [native] of the comment is followed by white space and a word
    character, the name of the entry is the declared one. *)
Lemma declared_name_of_block c N P T :
  names_after_native c = false -> is_identifier N = true ->
  entry_name (block c N P T) = N.
Proof.
  intros Hc HN. unfold entry_name, match_group, block.
  change (js "/**" ++ c ++ js "*/" ++ [nl] ++ js "native " ++ N ++
          js " takes " ++ P ++ js " returns " ++ T)
    with (cu "/" :: cu "*" :: cu "*" :: c ++ cu "*" :: cu "/" :: nl ::
          js "native" ++ sp :: N ++ sp :: js "takes " ++ P ++ js " returns " ++ T).
  do 3 (rewrite search_skip; [|apply native_re_needs_word; reflexivity]).
  rewrite (search_over_comment c 3 _ Hc).
  do 3 (rewrite search_skip; [|apply native_re_needs_word; reflexivity]).
  rewrite (search_here _ _ _ _
             (native_re_at N (sp :: js "takes " ++ P ++ js " returns " ++ T)
                           _ HN eq_refl)).
  cbn [m_end caps capture Nat.eqb or_default].
  destruct N; [discriminate | reflexivity].
Qed.

(** X3. A well-formed block whose comment nowhere has [native] followed by
    white space and a word character gives the entry named as declared;
    [native] alone in the comment, as in [native.], does no harm. *)
Theorem declared_name_extracted c N P T :
  includes (js "*/") c = false -> names_after_native c = false ->
  is_identifier N = true ->
  has_text P = true -> mentions_returns P = false ->
  is_identifier T = true ->
  map name (parseApiDocumentation [block c N P T]) = [N].
Proof.
  intros Hc Hn HN HP Hr HT.
  assert (Hb : well_formed_block (block c N P T)).
  { exists c, N, P, T. repeat split; assumption. }
  pose proof (parse_blocks [] [block c N P T] eq_refl
                (Forall_cons _ Hb (Forall_nil _))) as E.
  cbn [join] in E. rewrite E.
  cbn [map name entry_of]. rewrite (declared_name_of_block c N P T Hn HN).
  reflexivity.
Qed.

(** A comment without [native] is such a comment. *)
Lemma includes_names_after_native c :
  includes (js "native") c = false -> names_after_native c = false.
Proof.
  induction c as [|a c IH]; intros H; [reflexivity|].
  apply includes_cons in H as [H1 H2].
  cbn [names_after_native]. unfold native_word_at at 1. rewrite H1, (IH H2).
  reflexivity.
Qed.

Lemma declared_name c N P T :
  includes (js "native") c = false -> is_identifier N = true ->
  entry_name (block c N P T) = N.
Proof.
  intros Hc. apply declared_name_of_block, includes_names_after_native, Hc.
Qed.

(** The condition cannot be dropped, nor read as a condition on whole words:
    [alternative x] in the comment names the entry [x]. *)
Example alternative_names_entry :
  names_after_native (js " alternative x ") = true /\
  map name (parseApiDocumentation [alternative_text]) = [js "x"].
Proof. split; vm_compute; reflexivity. Qed.

(** ** What every state of a session satisfies *)

Lemma toItems_length rows :
  rows <> [] -> 1 <= List.length (toItems rows) <= 200.
Proof.
  intros H. unfold toItems. rewrite length_map, length_firstn.
  destruct rows; [congruence|]. cbn [List.length]. lia.
Qed.

Lemma parse_names texts :
  Forall (fun e => is_identifier (name e) = true) (parseApiDocumentation texts).
Proof.
  apply Forall_forall. intros e H. exact (proj1 (extracted_entry_shape texts e H)).
Qed.

Section SessionInvariants.

Variable fuse_search : Fuse -> jsstring -> list ApiEntry.

Lemma start_ok : session_ok fuzzySearch_start.
Proof.
  constructor; cbn; try discriminate; [lia | constructor].
Qed.

Lemma hidden_ok s : session_ok s -> session_ok (hidden s).
Proof.
  intros [H1 H2 H3 H4]. unfold hidden.
  destruct (listening s) eqn:L; constructor; fields; rewrite ?L; auto.
  intros D. destruct (H2 D) as [_ C]. congruence.
Qed.

Lemma step_ok s ev : session_ok s -> session_ok (step fuse_search s ev).
Proof.
  intros Hs. pose proof Hs as [H1 H2 H3 H4]. destruct ev as [rs|value|sel|];
    cbn [step].
  - destruct (awaiting s) eqn:A; [|exact Hs].
    assert (L : listening s = false).
    { destruct (listening s); [destruct (H1 eq_refl); congruence | reflexivity]. }
    assert (D : disposed s = false).
    { destruct (disposed s); [destruct (H2 eq_refl); congruence | reflexivity]. }
    unfold fuzzySearch_resume. destruct (promise_all rs) as [err|texts].
    + constructor; fields; rewrite ?L, ?D; try discriminate;
        [cbn [List.length]; lia | exact H4].
    + pose proof (parse_names texts) as Hn.
      destruct (parseApiDocumentation texts) as [|e l] eqn:P.
      * constructor; fields; rewrite ?L, ?D; try discriminate;
          [cbn [List.length]; lia | constructor].
      * constructor; fields; rewrite ?D; try discriminate.
        -- intros _. repeat split. discriminate.
        -- apply toItems_length. discriminate.
        -- exact Hn.
  - destruct (listening s && visible s) eqn:LV; [|exact Hs].
    apply andb_true_iff in LV as [L V]. destruct (H1 L) as (A & Hd & Hf).
    unfold onDidChangeValue. destruct (trim value).
    + constructor; fields; auto. apply toItems_length. exact Hd.
    + rewrite Hf. constructor; fields; auto.
      destruct (fuse_search _ value) eqn:R; [cbn [List.length]; lia|].
      apply toItems_length. discriminate.
  - destruct (listening s && visible s) eqn:LV; [|exact Hs].
    apply andb_true_iff in LV as [L V].
    unfold onDidChangeSelection. destruct sel as [|picked others]; [exact Hs|].
    unfold hide.
    assert (Hk : forall s0, session_ok s0 -> visible s0 = true ->
                 session_ok
                   (hidden (mkSession (busy s0) (items s0) (visible s0)
                              (disposed s0) (awaiting s0) (apiData s0) (fuse s0)
                              (listening s0) (details s0) (panels s0)
                              (writes s0 ++ [WHide])))).
    { intros s0 [K1 K2 K3 K4] V0. apply hidden_ok. constructor; fields; auto. }
    destruct (find _ (apiData s)) as [e|].
    + cbn [show_details visible]. rewrite V.
      apply (Hk (show_details e s)); [|exact V].
      constructor; fields; auto.
    + rewrite V. apply Hk; assumption.
  - destruct (visible s); [apply hidden_ok; exact Hs | exact Hs].
Qed.

Lemma run_app s evs evs' :
  run fuse_search s (evs ++ evs') = run fuse_search (run fuse_search s evs) evs'.
Proof. unfold run. apply fold_left_app. Qed.

Lemma run_ok evs : forall s, session_ok s -> session_ok (run fuse_search s evs).
Proof.
  induction evs as [|ev evs IH]; intros s H; [exact H|].
  cbn [run fold_left]. apply IH, step_ok, H.
Qed.

(** X9. Whatever happens, the quick pick shows at least one row and at most
    200. *)
Theorem rows_between_1_and_200 evs :
  1 <= List.length (items (run fuse_search fuzzySearch_start evs)) <= 200.
Proof. exact (ok_rows _ (run_ok evs _ start_ok)). Qed.

(** X8. A load that fails, or that finds no entry, never registers the handlers:
    whatever comes next writes nothing, opens no panel and never disposes
    the quick pick; a dismissal only hides it. *)
Theorem unloaded_session_inert rs evs :
  match promise_all rs with
  | inl _ => True
  | inr texts => parseApiDocumentation texts = []
  end ->
  let s0 := step fuse_search fuzzySearch_start (FetchSettled rs) in
  let s := run fuse_search s0 evs in
  listening s = false /\ disposed s = false /\
  busy s = false /\ items s = items s0 /\ writes s = writes s0 /\
  apiData s = [] /\ fuse s = None /\ panels s = [] /\
  (visible s = true -> visible s0 = true).
Proof.
  intros H. cbn zeta.
  set (s0 := step fuse_search fuzzySearch_start (FetchSettled rs)).
  assert (H0 : listening s0 = false /\ awaiting s0 = false /\ disposed s0 = false /\
               busy s0 = false /\ apiData s0 = [] /\ fuse s0 = None /\
               panels s0 = []).
  { unfold s0. cbn [step fuzzySearch_start awaiting]. unfold fuzzySearch_resume.
    destruct (promise_all rs) as [err|texts]; [repeat split|].
    rewrite H. repeat split. }
  clearbody s0. revert s0 H0.
  induction evs as [|ev evs IH]; intros s0 (L & A & D & B & P & F & Q).
  - cbn [run fold_left]. repeat split; auto.
  - cbn [run fold_left].
    assert (E : step fuse_search s0 ev = s0 \/
                step fuse_search s0 ev =
                mkSession (busy s0) (items s0) false (disposed s0) (awaiting s0)
                  (apiData s0) (fuse s0) (listening s0) (details s0) (panels s0)
                  (writes s0)).
    { destruct ev; cbn [step]; rewrite ?A, ?L; cbn [andb]; auto.
      destruct (visible s0); [right | left; reflexivity].
      unfold hidden. rewrite ?A, ?L. reflexivity. }
    destruct E as [-> | ->].
    + apply IH. repeat split; assumption.
    + match goal with
      | |- context [fold_left _ evs ?s1] =>
          destruct (IH s1) as (K1 & K2 & K3 & K4 & K5 & K6 & K7 & K8 & K9)
      end.
      { fields. repeat split; assumption. }
      cbn [items writes visible] in K4, K5, K9.
      repeat split; auto. intros V. apply K9 in V. discriminate.
Qed.

(** X11. A selection of one row or more in the loaded, visible session closes the
    quick pick for good: it is hidden and disposed, its rows stay as they
    were; and a panel titled with the label opens whenever an entry bears
    the label of the selected row. *)
Theorem selection_closes s picked others :
  listening s = true -> visible s = true ->
  let s' := step fuse_search s (ChangeSelection (picked :: others)) in
  visible s' = false /\ disposed s' = true /\
  items s' = items s /\ writes s' = writes s ++ [WHide; WDispose] /\
  ((exists r, In r (apiData s) /\ name r = label picked) ->
   exists e, In e (apiData s) /\ name e = label picked /\
             details s' = details s ++ [e] /\
             panels s' = panels s ++ [showFunctionDetails e] /\
             panel_title (showFunctionDetails e) = label picked).
Proof.
  intros L V. cbn [step]. rewrite L, V. cbn [andb]. unfold onDidChangeSelection.
  destruct (find (fun r => jsstring_eqb (name r) (label picked)) (apiData s))
    as [e|] eqn:F.
  - unfold hide. cbn [show_details visible]. rewrite V. unfold hidden.
    fields. rewrite L. unfold dispose. fields.
    repeat split; [rewrite <- app_assoc; reflexivity|].
    intros _. apply find_some in F as [Hin He]. apply jsstring_eqb_eq in He.
    exists e. repeat split; assumption.
  - unfold hide. rewrite V. unfold hidden. fields. rewrite L. unfold dispose. fields.
    repeat split; [rewrite <- app_assoc; reflexivity|].
    intros (r & Hin & Hr). exfalso.
    assert (Hf := find_none _ _ F r Hin). cbv beta in Hf.
    apply jsstring_eqb_eq in Hr. congruence.
Qed.

(** X12. A row whose label is no identifier, as the [no matches] row, stands for
    no entry: selecting it opens no panel and closes the quick pick. *)
Theorem placeholder_selection evs picked others :
  let s := run fuse_search fuzzySearch_start evs in
  listening s = true -> visible s = true ->
  is_identifier (label picked) = false ->
  let s' := step fuse_search s (ChangeSelection (picked :: others)) in
  panels s' = panels s /\ details s' = details s /\
  visible s' = false /\ disposed s' = true.
Proof.
  cbn zeta. intros L V Hl.
  pose proof (ok_names _ (run_ok evs _ start_ok)) as Hn.
  set (s := run fuse_search fuzzySearch_start evs) in *.
  cbn [step]. rewrite L, V. cbn [andb]. unfold onDidChangeSelection.
  destruct (find (fun r => jsstring_eqb (name r) (label picked)) (apiData s))
    as [e|] eqn:F.
  - exfalso. apply find_some in F as [Hin He]. apply jsstring_eqb_eq in He.
    rewrite Forall_forall in Hn. specialize (Hn e Hin). congruence.
  - unfold hide. rewrite V. unfold hidden. fields. rewrite L. unfold dispose. fields.
    repeat split.
Qed.

Lemma first_rejection_none rs :
  first_rejection rs = None <->
  Forall (fun r => exists d, r = Fulfilled d) (map snd rs).
Proof.
  induction rs as [|[t [d|e]] rs IH]; cbn [first_rejection map snd].
  - split; [constructor | reflexivity].
  - rewrite IH. split.
    + intros H. constructor; [exists d; reflexivity | exact H].
    + intros H. inversion H. assumption.
  - split.
    + destruct (first_rejection rs) as [[t' e']|]; [destruct (t' <? t)|]; discriminate.
    + intros H. inversion H as [|? ? [d Hd] _]. discriminate.
Qed.

Lemma response_data_snd rs :
  map response_data rs =
  map (fun r => match r with Fulfilled d => d | Rejected _ => [] end) (map snd rs).
Proof. rewrite map_map. apply map_ext. reflexivity. Qed.

(** X7. When every fetch succeeds, the entries are those of the bodies in the
    order of the URLs; when the fetches settled plays no part. *)
Theorem entries_in_url_order rs :
  first_rejection rs = None ->
  let s := step fuse_search fuzzySearch_start (FetchSettled rs) in
  apiData s = parseApiDocumentation (map response_data rs) /\
  forall rs', map snd rs' = map snd rs ->
              step fuse_search fuzzySearch_start (FetchSettled rs') = s.
Proof.
  intros H. cbn zeta. split.
  - cbn [step fuzzySearch_start awaiting]. unfold promise_all. rewrite H.
    unfold fuzzySearch_resume.
    destruct (parseApiDocumentation (map response_data rs)); reflexivity.
  - intros rs' E.
    assert (H' : first_rejection rs' = None).
    { apply first_rejection_none. rewrite E. apply first_rejection_none. exact H. }
    cbn [step fuzzySearch_start awaiting]. unfold promise_all. rewrite H, H'.
    rewrite (response_data_snd rs), (response_data_snd rs'), E. reflexivity.
Qed.

End SessionInvariants.

(** ** Pieces of the text, the function name, the first version *)

Lemma match_all_from_pieces r : forall fuel i s,
  pieces (match_all_from fuel r i s) s.
Proof.
  induction fuel as [|fuel IH]; intros i s; [constructor|].
  cbn [match_all_from]. destruct (search r i s) as [m|] eqn:E; [|constructor].
  apply search_sound in E as (_ & before & E1 & _). rewrite E1.
  destruct (pos (m_end m) =? m_index m).
  - destruct (rest (m_end m)) as [|c s'].
    + constructor. constructor.
    + constructor. change (c :: s') with ([c] ++ s').
      pose proof (IH (S (pos (m_end m))) s') as P.
      destruct (match_all_from fuel r (S (pos (m_end m))) s') as [|b bs];
        [constructor|].
      inversion P as [|? ? u t Pt]; subst.
      rewrite app_assoc. constructor. exact Pt.
  - constructor. apply IH.
Qed.

(** X5. The descriptions of the entries are pieces of the combined text, in the
    order of the entries, none over another. *)
Theorem descriptions_in_order texts :
  pieces (map description (parseApiDocumentation texts)) (join [nl] texts).
Proof.
  unfold parseApiDocumentation, match_all. rewrite map_map.
  cbn [description entry_of]. rewrite map_id. apply match_all_from_pieces.
Qed.

Lemma name_re_at N t :
  is_identifier N = true ->
  rmatch name_re (MState 0 (N ++ cu "(" :: t) []) Some =
  Some (MState (S (List.length N)) t [(1, N)]).
Proof.
  intros HN. destruct (is_identifier_inv _ HN) as [HNne HNw].
  unfold name_re. rewrite rmatch_Seq, rmatch_Group.
  destruct N as [|n0 N]; [congruence|].
  cbn [forallb] in HNw. apply andb_true_iff in HNw as [Hn0 HNw].
  unfold plus. rewrite rmatch_Seq. cbn [app]. unfold wd at 1.
  rewrite rmatch_Cls, Hn0.
  apply (greedy_run is_word N); [exact HNw | reflexivity |].
  cbv beta. unfold set_cap. cbn [pos rest caps].
  rewrite rmatch_Chr, N.eqb_refl.
  f_equal. f_equal. f_equal. f_equal.
  change (firstn (1 + List.length N - 0) ((n0 :: N) ++ cu "(" :: t) = n0 :: N).
  replace (1 + List.length N - 0) with (List.length (n0 :: N) + 0)
    by (cbn [List.length]; lia).
  rewrite firstn_app_2. cbn [firstn]. apply app_nil_r.
Qed.

(** X6. For every extracted entry the function-name span holds the name of the
    entry, and the rest of the signature follows it as it was. *)
Theorem name_span_holds_name texts e :
  In e (parseApiDocumentation texts) ->
  exists tail,
    signature e = name e ++ js "(" ++ tail /\
    highlightedName (signature e) =
    func_name_open ++ name e ++ js "</span>(" ++ tail.
Proof.
  intros H. destruct (extracted_entry_shape texts e H) as (Hn & (P & T & E & _) & _).
  exists (P ++ js "): " ++ T). split; [exact E|].
  unfold highlightedName, replace_at_start. rewrite E.
  change (name e ++ js "(" ++ P ++ js "): " ++ T)
    with (name e ++ cu "(" :: P ++ js "): " ++ T).
  rewrite (name_re_at (name e) _ Hn). cbn [caps rest].
  unfold expand, name_tpl. cbn [map List.concat capture Nat.eqb].
  repeat rewrite <- app_assoc. cbn [app]. reflexivity.
Qed.

Lemma find_from_hit {A} (p : A -> bool) r after : forall before,
  p r = true ->
  exists e, find p (before ++ r :: after) = Some e /\ p e = true /\
            (e = r \/ In e before) /\
            ((forall x, In x before -> p x = false) -> e = r) /\
            ((exists x, In x before /\ p x = true) -> In e before).
Proof.
  intros before Hr. induction before as [|b before IH].
  - exists r. cbn [app find]. rewrite Hr. repeat split; auto.
    intros (x & [] & _).
  - cbn [app find]. destruct (p b) eqn:Hb.
    + exists b. repeat split; auto.
      * right. left. reflexivity.
      * intros H. rewrite (H b (or_introl eq_refl)) in Hb. discriminate.
      * intros _. left. reflexivity.
    + destruct IH as (e & F & He & Hor & Hfirst & Hin). exists e.
      repeat split; auto.
      * destruct Hor as [-> | H]; [left; reflexivity | right; right; exact H].
      * intros H. apply Hfirst. intros x Hx. apply H. right. exact Hx.
      * intros (x & [<- | Hx] & Px); [congruence|].
        right. apply Hin. exists x. split; assumption.
Qed.

Section PromptedFacts.

Variable fuse_search : Fuse -> jsstring -> list ApiEntry.

(** X13. When a fetch is refused the first version of the command shows its one
    fixed error message, without the text of the rejection, and asks
    nothing. *)
Theorem prompted_fetch_failure rs userInput selection :
  (exists t e, In (t, Rejected e) rs) ->
  Prompted.fuzzySearch fuse_search rs userInput selection =
  [Prompted.ShowErrorMessage (js "Failed to fetch API data from GitHub.")].
Proof.
  intros (t & e & Hin). unfold Prompted.fuzzySearch, Prompted.fetchApiDocumentation,
    promise_all.
  destruct (first_rejection rs) as [[t' e']|] eqn:E; [reflexivity|].
  exfalso. exact (first_rejection_some rs t e Hin E).
Qed.

(** X14. In the first version, picking the row of a result opens the details of
    the first result whose name begins that row: the picked result when no
    result before it has such a name, a result before it otherwise. *)
Theorem prompted_row_selection rs texts input before r after :
  promise_all rs = inr texts -> texts <> [] ->
  parseApiDocumentation texts <> [] -> input <> [] ->
  fuse_search (mkFuse (parseApiDocumentation texts) Prompted.fuse_options) input
  = before ++ r :: after ->
  exists e,
    Prompted.fuzzySearch fuse_search rs (Some input) (Some (Prompted.row r)) =
    [Prompted.ShowInputBox (js "Search API...");
     Prompted.ShowQuickPick (map Prompted.row (before ++ r :: after))
                            (js "Select a function");
     Prompted.ShowFunctionDetails e] /\
    startsWith (name e) (Prompted.row r) = true /\
    (e = r \/ In e before) /\
    ((forall x, In x before -> startsWith (name x) (Prompted.row r) = false) ->
     e = r) /\
    ((exists x, In x before /\ startsWith (name x) (Prompted.row r) = true) ->
     In e before).
Proof.
  intros Hp Ht Hd Hi Hr.
  destruct (find_from_hit (fun res => startsWith (name res) (Prompted.row r))
              r after before (startsWith_app (name r) _))
    as (e & F & He & Hor & Hfirst & Hin).
  exists e. split; [|repeat split; assumption].
  unfold Prompted.fuzzySearch, Prompted.fetchApiDocumentation. rewrite Hp.
  destruct texts as [|t0 texts]; [congruence|].
  destruct (parseApiDocumentation (t0 :: texts)) as [|d ds] eqn:P; [congruence|].
  destruct input as [|c input]; [congruence|].
  change (Prompted.truthy (Some (c :: input))) with (Some (c :: input)).
  cbv iota. rewrite Hr.
  destruct (before ++ r :: after) as [|x xs] eqn:B;
    [destruct before; discriminate|].
  assert (Hrow : Prompted.truthy (Some (Prompted.row r)) = Some (Prompted.row r)).
  { unfold Prompted.row. destruct (name r); reflexivity. }
  rewrite Hrow, F. reflexivity.
Qed.

End PromptedFacts.

(** ** The extras on the inputs of the examples *)

Lemma baz_well_formed : well_formed_block baz_text.
Proof.
  exists (js " doc "), (js "Baz"), (js "nothing"), (js "nothing").
  repeat split.
Qed.

(** A declaration without its comment. *)
Lemma missing_keyword_no_entries_witness :
  parseApiDocumentation [js "native F takes integer a returns boolean"] = [].
Proof.
  apply (missing_keyword_no_entries _ (js "/**")).
  - left. reflexivity.
  - reflexivity.
Defined.

(** Three blocks on consecutive lines. *)
Lemma run_of_blocks_witness :
  map description
    (parseApiDocumentation [join [nl] [foobar_text; getunit_text; baz_text]])
  = [foobar_text; getunit_text; baz_text].
Proof.
  refine (proj2 (proj2 (run_of_blocks [nl] [foobar_text; getunit_text; baz_text]
                          _ _))).
  - reflexivity.
  - repeat constructor;
      [exact foobar_well_formed | exact getunit_well_formed | exact baz_well_formed].
Defined.

(** The comment says [native.], with no word after it. *)
Lemma declared_name_extracted_witness :
  includes (js "native") (js " the native. ") = true /\
  map name
    (parseApiDocumentation
       [block (js " the native. ") (js "FooBar") (js "integer a") (js "boolean")])
  = [js "FooBar"].
Proof.
  split; [reflexivity|].
  apply (declared_name_extracted (js " the native. ") (js "FooBar")
           (js "integer a") (js "boolean")); reflexivity.
Defined.

Lemma foobar_extracted :
  In (entry_of foobar_text) (parseApiDocumentation [foobar_text]).
Proof. vm_compute. left. reflexivity. Qed.

Lemma entries_well_shaped_witness :
  is_identifier (name (entry_of foobar_text)) = true.
Proof.
  exact (proj1 (entries_well_shaped [foobar_text] (entry_of foobar_text)
                  foobar_extracted)).
Defined.

Lemma name_span_holds_name_witness :
  exists tail,
    signature (entry_of foobar_text) = name (entry_of foobar_text) ++ js "(" ++ tail /\
    highlightedName (signature (entry_of foobar_text)) =
    func_name_open ++ name (entry_of foobar_text) ++ js "</span>(" ++ tail.
Proof.
  exact (name_span_holds_name [foobar_text] (entry_of foobar_text)
           foobar_extracted).
Defined.

Lemma entries_in_url_order_witness :
  apiData (step substring_search fuzzySearch_start (FetchSettled all_fetched)) =
  parseApiDocumentation [foobar_text; baz_text].
Proof.
  refine (proj1 (entries_in_url_order substring_search all_fetched _)).
  reflexivity.
Defined.

Lemma unloaded_session_inert_witness :
  disposed (run substring_search
              (step substring_search fuzzySearch_start (FetchSettled one_refused))
              [ChangeValue (js "Foo"); Dismiss; Dismiss]) = false.
Proof.
  refine (proj1 (proj2 (unloaded_session_inert substring_search one_refused
                          [ChangeValue (js "Foo"); Dismiss; Dismiss] _))).
  vm_compute. exact I.
Defined.

Lemma selection_closes_witness :
  disposed (step substring_search loaded
              (ChangeSelection [row_of (entry_of baz_text)])) = true.
Proof.
  refine (proj1 (proj2 (selection_closes substring_search loaded
                          (row_of (entry_of baz_text)) [] _ _)));
    vm_compute; reflexivity.
Defined.

Lemma placeholder_selection_witness :
  panels (step substring_search
            (run substring_search fuzzySearch_start [FetchSettled all_fetched])
            (ChangeSelection [no_matches_row])) =
  panels (run substring_search fuzzySearch_start [FetchSettled all_fetched]).
Proof.
  refine (proj1 (placeholder_selection substring_search
                   [FetchSettled all_fetched] no_matches_row [] _ _ _));
    vm_compute; reflexivity.
Defined.

Lemma prompted_fetch_failure_witness :
  Prompted.fuzzySearch substring_search one_refused (Some (js "Foo")) None =
  [Prompted.ShowErrorMessage (js "Failed to fetch API data from GitHub.")].
Proof.
  apply prompted_fetch_failure. exists 1, boom. right. left. reflexivity.
Defined.

Lemma prompted_row_selection_witness :
  exists e,
    Prompted.fuzzySearch substring_search all_fetched (Some (js "a"))
      (Some (Prompted.row (entry_of baz_text))) =
    [Prompted.ShowInputBox (js "Search API...");
     Prompted.ShowQuickPick
       (map Prompted.row ([entry_of foobar_text] ++ entry_of baz_text :: []))
       (js "Select a function");
     Prompted.ShowFunctionDetails e] /\
    startsWith (name e) (Prompted.row (entry_of baz_text)) = true.
Proof.
  destruct (prompted_row_selection substring_search all_fetched
              [foobar_text; baz_text] (js "a")
              [entry_of foobar_text] (entry_of baz_text) [])
    as (e & E & S & _).
  - reflexivity.
  - discriminate.
  - vm_compute. discriminate.
  - discriminate.
  - vm_compute. reflexivity.
  - exists e. split; [exact E | exact S].
Defined.
